(** * itermultipart: the streaming multipart/form-data encoder

    A shallow embedding of [Source] (incremental [Read], bulk [WriteTo],
    boundary management) and of [Part] (header and content operations),
    with the properties of the specification stated over it. *)

From Stdlib Require Import Ascii.
From Stdlib Require String.
From stdpp Require Import gmap list sorting strings.

(** ** Bytes and Go strings

    A Go [string] is a sequence of bytes: it is embedded as [string].  Buffers
    and produced output are [list ascii]. *)

Abbreviation bytes := (list ascii).

Definition bytes_of (s : string) : bytes := String.list_ascii_of_string s.

Definition CR : ascii := ascii_of_nat 13.
Definition LF : ascii := ascii_of_nat 10.
Definition CRLF : string := String CR (String LF EmptyString).

(** ** Errors *)

Inductive error : Type :=
| EOF                      (* io.EOF *)
| ErrUnexpectedEOF         (* io.ErrUnexpectedEOF *)
| ErrNoProgress            (* io.ErrNoProgress *)
| ErrClosed                (* "source is closed" *)
| ErrSetBoundaryAfterRead  (* "SetBoundary called after read" *)
| ErrBoundaryLength        (* "invalid boundary length" *)
| ErrBoundaryCharacter     (* "invalid boundary character" *)
| ErrOther (msg : string)  (* an error of the part sequence or of a content stream *)
| ErrWrap (msg : string) (e : error). (* fmt.Errorf("...: %w", e) *)

#[global] Instance error_eq_dec : EqDecision error.
Proof. solve_decision. Defined.

(** errors.Is(err, io.EOF) *)
Fixpoint isEOF (e : error) : bool :=
  match e with
  | EOF => true
  | ErrWrap _ e' => isEOF e'
  | _ => false
  end.

(** ** MIME headers

    [textproto.MIMEHeader] is [map[string][]string]. *)

Abbreviation MIMEHeader := (gmap string (list string)).

(** slices.Sorted(maps.Keys(h)): the keys in ascending byte-wise order. *)
Definition strLe (a b : string) : Prop := String.leb a b = true.

#[global] Instance strLe_dec : RelDecision strLe.
Proof. intros a b. unfold strLe. apply _. Defined.

Definition sortedKeys {V} (h : gmap string V) : list string :=
  merge_sort strLe (map fst (map_to_list h)).

(** ** Content streams

    [Part.Content] is an [io.Reader].  The readers that the repository itself
    creates, wraps or tests for are embedded by kind; [RStream] stands for any
    other reader, one that hands out at most [S chunk] bytes per call and
    ends with [fail] ([EOF] for a clean end). *)

Inductive seekKind : Type :=
| KBytes                            (* *bytes.Reader *)
| KStrings                          (* *strings.Reader *)
| KFile (seekErr : option error).   (* another io.ReadSeeker, such as *os.File *)

#[warnings="-register-all"]
Inductive Reader : Type :=
| RSeek (k : seekKind) (data : bytes) (pos : nat)
| RStream (chunk : nat) (rest : bytes) (fail : error)
| RError (e : error)                                  (* *errorReader *)
| RMulti (rs : list Reader)                           (* io.MultiReader *)
| RBufio (size : nat) (buf : bytes) (err : option error) (rd : Reader) (* *bufio.Reader *)
| RLimited (rd : Reader) (N : Z).                     (* *io.LimitedReader *)

(** The result of one [Read(p)] with [len(p) = n]: the bytes copied into [p],
    the error, and the reader afterwards. *)
Abbreviation readResult := (bytes * option error * Reader)%type.

(** bufio.Reader.readErr *)
Definition readErr (e : option error) : option error := e.

Fixpoint Read (r : Reader) (n : nat) {struct r} : readResult :=
  match r with
  | RSeek k data pos =>
      if decide (length data ≤ pos) then ([], Some EOF, r)
      else let bs := take n (drop pos data) in
           (bs, None, RSeek k data (pos + length bs))
  | RStream chunk rest fail =>
      match rest with
      | [] => ([], Some fail, r)
      | _ => let bs := take (n `min` S chunk) rest in
             (bs, None, RStream chunk (drop (length bs) rest) fail)
      end
  | RError e => ([], Some e, r)
  | RMulti rs =>
      let fix go (rs : list Reader) : bytes * option error * list Reader :=
        match rs with
        | [] => ([], Some EOF, [])
        | r0 :: rest =>
            let '(bs, e, r0') := Read r0 n in
            let rs' := if decide (e = Some EOF) then rest else r0' :: rest in
            if decide (0 < length bs ∨ e ≠ Some EOF) then
              (bs, (if decide (e = Some EOF ∧ 0 < length rs') then None else e), rs')
            else go rest
        end in
      let '(bs, e, rs') := go rs in (bs, e, RMulti rs')
  | RBufio size buf err rd =>
      match n with
      | 0 => match buf with
             | [] => ([], readErr err, RBufio size buf None rd)
             | _ => ([], None, r)
             end
      | _ =>
          match buf with
          | [] =>
              match err with
              | Some e => ([], readErr err, RBufio size [] None rd)
              | None =>
                  if decide (size ≤ n) then
                    let '(bs, e, rd') := Read rd n in
                    (bs, readErr e, RBufio size [] None rd')
                  else
                    let '(bs, e, rd') := Read rd size in
                    match bs with
                    | [] => ([], readErr e, RBufio size [] None rd')
                    | _ => (take n bs, None, RBufio size (drop n bs) e rd')
                    end
              end
          | _ => (take n buf, None, RBufio size (drop n buf) err rd)
          end
      end
  | RLimited rd N =>
      if decide (N ≤ 0)%Z then ([], Some EOF, r)
      else let n' := if decide (N < Z.of_nat n)%Z then Z.to_nat N else n in
           let '(bs, e, rd') := Read rd n' in
           (bs, e, RLimited rd' (N - Z.of_nat (length bs)))
  end.

(** The bytes a reader has yet to deliver and the error that ends them
    ([EOF] for a clean end). *)
Fixpoint stream (r : Reader) : bytes * error :=
  match r with
  | RSeek _ data pos => (drop pos data, EOF)
  | RStream _ rest fail => (rest, fail)
  | RError e => ([], e)
  | RMulti rs =>
      (fix go (rs : list Reader) : bytes * error :=
         match rs with
         | [] => ([], EOF)
         | r0 :: rest =>
             let '(bs, e) := stream r0 in
             if decide (e = EOF) then (bs ++ (go rest).1, (go rest).2) else (bs, e)
         end) rs
  | RBufio _ buf err rd =>
      match err with
      | Some e => (buf, e)
      | None => (buf ++ (stream rd).1, (stream rd).2)
      end
  | RLimited rd N =>
      let '(bs, e) := stream rd in
      if decide (Z.of_nat (length bs) < N)%Z then (bs, e)
      else (take (Z.to_nat N) bs, EOF)
  end.

(** A [bufio.Reader] has a buffer of positive size, and the error it holds is
    the one its underlying reader ended with. *)
Fixpoint wfReader (r : Reader) : Prop :=
  match r with
  | RMulti rs => (fix go (rs : list Reader) : Prop :=
                    match rs with [] => True | r0 :: rest => wfReader r0 ∧ go rest end) rs
  | RBufio size buf err rd =>
      0 < size ∧ wfReader rd ∧
      match err with Some e => stream rd = ([], e) | None => True end
  | RLimited rd _ => wfReader rd
  | _ => True
  end.

(** ** Induction on readers *)

Section ReaderInduction.
Variable P : Reader → Prop.
Hypothesis HSeek : ∀ k data pos, P (RSeek k data pos).
Hypothesis HStream : ∀ chunk rest fail, P (RStream chunk rest fail).
Hypothesis HError : ∀ e, P (RError e).
Hypothesis HMulti : ∀ rs, Forall P rs → P (RMulti rs).
Hypothesis HBufio : ∀ size buf err rd, P rd → P (RBufio size buf err rd).
Hypothesis HLimited : ∀ rd N, P rd → P (RLimited rd N).

Fixpoint Reader_nested_ind (r : Reader) : P r :=
  match r with
  | RSeek k data pos => HSeek k data pos
  | RStream chunk rest fail => HStream chunk rest fail
  | RError e => HError e
  | RMulti rs =>
      HMulti rs ((fix go (rs : list Reader) : Forall P rs :=
                    match rs with
                    | [] => Forall_nil_2 P
                    | r0 :: rest => Forall_cons_2 P r0 rest (Reader_nested_ind r0) (go rest)
                    end) rs)
  | RBufio size buf err rd => HBufio size buf err rd (Reader_nested_ind rd)
  | RLimited rd N => HLimited rd N (Reader_nested_ind rd)
  end.
End ReaderInduction.

(** What one [Read] call does to the stream of a reader. *)
Definition readSpec (r : Reader) (n : nat) : Prop :=
  let '(bs, e, r') := Read r n in
  length bs ≤ n ∧ wfReader r' ∧
  match e with
  | None => stream r = (bs ++ (stream r').1, (stream r').2) ∧ (0 < n → bs ≠ [])
  | Some err => bs = [] ∧ stream r = ([], err) ∧ stream r' = ([], err)
  end.

(** The loops of [io.MultiReader] over its readers, by name. *)
Definition readMulti (n : nat) : list Reader → bytes * option error * list Reader :=
  fix go rs :=
    match rs with
    | [] => ([], Some EOF, [])
    | r0 :: rest =>
        let '(bs, e, r0') := Read r0 n in
        let rs' := if decide (e = Some EOF) then rest else r0' :: rest in
        if decide (0 < length bs ∨ e ≠ Some EOF) then
          (bs, (if decide (e = Some EOF ∧ 0 < length rs') then None else e), rs')
        else go rest
    end.

Definition streamMulti : list Reader → bytes * error :=
  fix go rs :=
    match rs with
    | [] => ([], EOF)
    | r0 :: rest =>
        let '(bs, e) := stream r0 in
        if decide (e = EOF) then (bs ++ (go rest).1, (go rest).2) else (bs, e)
    end.

(** ** Panics

    A Go operation either returns or panics (a write to a nil map, a method
    call on a nil interface, a nil pointer dereference). *)

Inductive exec (A : Type) : Type :=
| Ok (a : A)
| Panic (msg : string).
Arguments Ok {A} a.
Arguments Panic {A} msg.

#[global] Instance exec_bind : MBind exec := λ A B f x,
  match x with
  | Ok a => f a
  | Panic msg => Panic msg
  end.

#[global] Instance exec_ret : MRet exec := λ A a, Ok a.

(** ** mime.FormatMediaType

    The standard library's serialisation of a media type and its parameters:
    the lower-cased type, then for every attribute in ascending order
    [; attr=value], the value as it is when it is a token, RFC 2231
    percent-encoded when it has bytes outside printable ASCII, and a quoted
    string otherwise.  The empty string stands for an invalid type or
    attribute. *)

Definition DQUOTE : ascii := ascii_of_nat 34.

Definition isTSpecial (c : ascii) : bool :=
  bool_decide (c ∈ DQUOTE :: String.list_ascii_of_string "()<>@,;:\/[]?=").

Definition isTokenChar (c : ascii) : bool :=
  let n := nat_of_ascii c in
  bool_decide (0x20 < n ∧ n < 0x7f) && negb (isTSpecial c).

Definition isToken (s : string) : bool :=
  match s with
  | EmptyString => false
  | _ => forallb isTokenChar (String.list_ascii_of_string s)
  end.

Definition toLowerChar (c : ascii) : ascii :=
  let n := nat_of_ascii c in
  if bool_decide (65 ≤ n ∧ n ≤ 90) then ascii_of_nat (n + 32) else c.

Definition toLower (s : string) : string :=
  String.string_of_list_ascii (map toLowerChar (String.list_ascii_of_string s)).

Definition needsEncoding (s : string) : bool :=
  existsb (λ c, let n := nat_of_ascii c in
                bool_decide ((n < 32 ∨ 126 < n) ∧ n ≠ 9))
          (String.list_ascii_of_string s).

Definition upperhex (n : nat) : ascii :=
  nth n (String.list_ascii_of_string "0123456789ABCDEF") "0"%char.

(** The percent-encoding of one byte of an RFC 2231 value. *)
Definition encode2231 (c : ascii) : bytes :=
  let n := nat_of_ascii c in
  if bool_decide (n ≤ 32 ∨ 127 ≤ n) || bool_decide (c ∈ String.list_ascii_of_string "*'%")
     || isTSpecial c
  then ["%"%char; upperhex (n / 16); upperhex (n mod 16)]
  else [c].

(** One byte of a quoted string. *)
Definition quoteChar (c : ascii) : bytes :=
  if bool_decide (c = DQUOTE ∨ c = "\"%char) then ["\"%char; c] else [c].

Definition formatParam (attribute value : string) : option bytes :=
  if negb (isToken attribute) then None
  else
    let attr := String.list_ascii_of_string (toLower attribute) in
    let v := String.list_ascii_of_string value in
    Some ([";"; " "]%char ++ attr ++
          (if needsEncoding value then
             ["*"; "="]%char ++ String.list_ascii_of_string "utf-8''" ++ concat (map encode2231 v)
           else if isToken value then "="%char :: v
           else ["="%char; DQUOTE] ++ concat (map quoteChar v) ++ [DQUOTE])).

(** strings.Cut(t, "/") *)
Fixpoint cutSlash (t : bytes) : option (bytes * bytes) :=
  match t with
  | [] => None
  | c :: t' =>
      if bool_decide (c = "/"%char) then Some ([], t')
      else match cutSlash t' with
           | Some (a, b) => Some (c :: a, b)
           | None => None
           end
  end.

Definition formatType (t : string) : option bytes :=
  match cutSlash (String.list_ascii_of_string t) with
  | None => if isToken t then Some (String.list_ascii_of_string (toLower t)) else None
  | Some (major, sub) =>
      let major := String.string_of_list_ascii major in
      let sub := String.string_of_list_ascii sub in
      if isToken major && isToken sub then
        Some (String.list_ascii_of_string (toLower major) ++ "/"%char ::
              String.list_ascii_of_string (toLower sub))
      else None
  end.

Fixpoint formatParams (param : gmap string string) (attrs : list string) : option bytes :=
  match attrs with
  | [] => Some []
  | a :: attrs' =>
      match formatParam a (default "" (param !! a)), formatParams param attrs' with
      | Some x, Some y => Some (x ++ y)
      | _, _ => None
      end
  end.

Definition FormatMediaType (t : string) (param : gmap string string) : string :=
  match formatType t, formatParams param (sortedKeys param) with
  | Some x, Some y => String.string_of_list_ascii (x ++ y)
  | _, _ => ""
  end.

(** ** Parts *)

Definition contentDispositionHeader : string := "Content-Disposition".
Definition contentTypeHeader : string := "Content-Type".
Definition formDataDisposition : string := "form-data".

(** [p.dispositionParams]: nil, a map of the part's own, or the package-level
    [emptyParams] map, which every part that was parsed without a
    disposition shares. *)
Inductive paramsRef : Type :=
| PNil
| POwn (m : gmap string string)
| PShared.

Record Part : Type := mkPart {
  Header : option MIMEHeader;          (* None: a nil map *)
  Content : option Reader;             (* None: a nil interface *)
  disposition : string;
  dispositionParams : paramsRef;
  signature : option bytes;            (* the sniffing buffer of the older DetectContentType *)
}.

Definition NewPart : Part :=
  {| Header := Some ∅; Content := None; disposition := "";
     dispositionParams := PNil; signature := None |}.

(** [h.Set(key, value)] for a key in canonical form; writing a nil map panics. *)
Definition headerSet (h : option MIMEHeader) (key value : string) : exec MIMEHeader :=
  match h with
  | None => Panic "assignment to entry in nil map"
  | Some m => Ok (<[key := [value]]> m)
  end.

(** [h[key]]; reading a nil map gives the zero value. *)
Definition headerValues (h : option MIMEHeader) (key : string) : list string :=
  match h with
  | None => []
  | Some m => default [] (m !! key)
  end.

(** [h.Get(key)] *)
Definition headerGet (h : option MIMEHeader) (key : string) : string :=
  match headerValues h key with
  | [] => ""
  | v :: _ => v
  end.

(** The map a [paramsRef] points to, [g] being the contents of [emptyParams]. *)
Definition paramsMap (g : gmap string string) (r : paramsRef) : gmap string string :=
  match r with
  | PNil => ∅
  | POwn m => m
  | PShared => g
  end.

(** [params[key] = value] *)
Definition paramsSet (g : gmap string string) (r : paramsRef) (key value : string)
  : exec (gmap string string * paramsRef) :=
  match r with
  | PNil => Panic "assignment to entry in nil map"
  | POwn m => Ok (g, POwn (<[key := value]> m))
  | PShared => Ok (<[key := value]> g, PShared)
  end.

Definition paramsNonNil (r : paramsRef) : bool :=
  match r with PNil => false | _ => true end.

Definition setHeader (p : Part) (h : option MIMEHeader) : Part :=
  {| Header := h; Content := Content p; disposition := disposition p;
     dispositionParams := dispositionParams p; signature := signature p |}.

Definition setContent (p : Part) (c : option Reader) : Part :=
  {| Header := Header p; Content := c; disposition := disposition p;
     dispositionParams := dispositionParams p; signature := signature p |}.

Definition setDisposition (p : Part) (d : string) (r : paramsRef) : Part :=
  {| Header := Header p; Content := Content p; disposition := d;
     dispositionParams := r; signature := signature p |}.

Definition setSignature (p : Part) (sig : option bytes) : Part :=
  {| Header := Header p; Content := Content p; disposition := disposition p;
     dispositionParams := dispositionParams p; signature := sig |}.

(** The operations on a part thread [g], the contents of [emptyParams]. *)
Definition SetFormName (g : gmap string string) (p : Part) (formName : string)
  : exec (gmap string string * Part) :=
  let r := match dispositionParams p with PNil => POwn ∅ | r => r end in
  '(g, r) ← paramsSet g r "name" formName;
  let d := FormatMediaType formDataDisposition (paramsMap g r) in
  h ← headerSet (Header p) contentDispositionHeader d;
  Ok (g, setHeader (setDisposition p d r) (Some h)).

Definition SetFileName (g : gmap string string) (p : Part) (fileName : string)
  : exec (gmap string string * Part) :=
  '(g, r) ← paramsSet g (dispositionParams p) "filename" fileName;
  let d := FormatMediaType formDataDisposition (paramsMap g r) in
  h ← headerSet (Header p) contentDispositionHeader d;
  h ← headerSet (Some h) contentTypeHeader "application/octet-stream";
  Ok (g, setHeader (setDisposition p d r) (Some h)).

Definition SetContent (p : Part) (content : Reader) : Part := setContent p (Some content).

Definition SetContentString (p : Part) (content : string) : Part :=
  match Content p with
  | Some (RSeek KStrings _ _) =>            (* sr.Reset(content) *)
      setContent p (Some (RSeek KStrings (bytes_of content) 0))
  | _ => SetContent p (RSeek KStrings (bytes_of content) 0)
  end.

Definition SetContentBytes (p : Part) (content : bytes) : Part :=
  match Content p with
  | Some (RSeek KBytes _ _) =>              (* br.Reset(content) *)
      setContent p (Some (RSeek KBytes content 0))
  | _ => SetContent p (RSeek KBytes content 0)
  end.

Definition SetContentType (p : Part) (contentType : string) : Part :=
  let h := match Header p with None => ∅ | Some m => m end in
  setHeader p (Some (<[contentTypeHeader := [contentType]]> h)).

Definition ContentType (p : Part) : string := headerGet (Header p) contentTypeHeader.

Section PartParsing.
(** mime.ParseMediaType: the media type, its parameters (nil on failure)
    and the error. *)
Variable ParseMediaType : string → string * option (gmap string string) * option error.

Definition parseContentDisposition (p : Part) : Part :=
  match headerValues (Header p) contentDispositionHeader with
  | [] => setDisposition p "" PShared
  | v0 :: _ =>
      if paramsNonNil (dispositionParams p) && bool_decide (disposition p = v0)
      then p
      else
        let '(d, m, err) := ParseMediaType v0 in
        let r := match m with Some m => POwn m | None => PNil end in
        setDisposition p d (match err with Some _ => PShared | None => r end)
  end.

Definition FormName (g : gmap string string) (p : Part) : string * Part :=
  let p := parseContentDisposition p in
  if bool_decide (disposition p ≠ formDataDisposition) then ("", p)
  else (default "" (paramsMap g (dispositionParams p) !! "name"), p).
End PartParsing.

(** ** The source

    Parts are passed by pointer: the heap is the list of the parts that
    exist, a [*Part] is an index into it ([None] for nil), and the sequence
    [iter.Seq2[*Part, error]] is the list of the pairs it yields.  Every part
    owns its content reader. *)

Abbreviation Heap := (list Part).
Abbreviation PartSeq2 := (list (option nat * option error)).

Record Source : Type := mkSource {
  boundary : string;
  parts : PartSeq2;
  pull : option PartSeq2;     (* None: nil; Some l: the pairs the pull iterator has yet to yield *)
  buffered : bytes;           (* the unread bytes of the bytes.Buffer *)
  firstHeadingWritten : bool;
  lastPart : option nat;
  finalizing : bool;
  closed : bool;
}.

Definition lowerhex (n : nat) : ascii :=
  nth n (String.list_ascii_of_string "0123456789abcdef") "0"%char.

(** fmt.Sprintf("%x", randBoundary) *)
Definition hexOf (bs : bytes) : string :=
  String.string_of_list_ascii
    (concat (map (λ c, let n := nat_of_ascii c in [lowerhex (n / 16); lowerhex (n mod 16)]) bs)).

(** [rnd] is what crypto/rand delivers into the 30 bytes of [randBoundary]. *)
Definition NewSource (parts : PartSeq2) (rnd : bytes) : Source :=
  {| boundary := hexOf (take 30 rnd); parts := parts; pull := None; buffered := [];
     firstHeadingWritten := false; lastPart := None; finalizing := false;
     closed := false |}.

(** PartSeq(parts...) *)
Definition PartSeq (ps : list (option nat)) : PartSeq2 := map (λ p, (p, None)) ps.

Definition headerLines (h : MIMEHeader) : bytes :=
  concat (map (λ k, concat (map (λ v, bytes_of CRLF ++ bytes_of k ++ bytes_of ": " ++ bytes_of v)
                                (default [] (h !! k))))
              (sortedKeys h)).

(** The bytes [populatePartHeading] leaves in the buffer. *)
Definition partHeading (first : bool) (b : string) (h : option MIMEHeader) : bytes :=
  (if first then bytes_of "--" else bytes_of CRLF ++ bytes_of "--") ++ bytes_of b ++
  headerLines (default ∅ h) ++ bytes_of CRLF ++ bytes_of CRLF.

Definition populatePartHeading (s : Source) (part : Part) : Source :=
  {| boundary := boundary s; parts := parts s; pull := pull s;
     buffered := partHeading (negb (firstHeadingWritten s)) (boundary s) (Header part);
     firstHeadingWritten := true; lastPart := lastPart s;
     finalizing := finalizing s; closed := closed s |}.

Definition ending (b : string) : bytes :=
  bytes_of CRLF ++ bytes_of "--" ++ bytes_of b ++ bytes_of "--" ++ bytes_of CRLF.

Definition populateEnding (s : Source) : Source :=
  {| boundary := boundary s; parts := parts s; pull := pull s;
     buffered := ending (boundary s);
     firstHeadingWritten := firstHeadingWritten s; lastPart := lastPart s;
     finalizing := finalizing s; closed := closed s |}.

(** bytes.Buffer.Read with [len(p) = n] *)
Definition bufferRead (buf : bytes) (n : nat) : bytes * option error * bytes :=
  match buf with
  | [] => ([], (if decide (n = 0) then None else Some EOF), [])
  | _ => (take n buf, None, drop n buf)
  end.

Definition setPull (s : Source) (pl : option PartSeq2) : Source :=
  {| boundary := boundary s; parts := parts s; pull := pl; buffered := buffered s;
     firstHeadingWritten := firstHeadingWritten s; lastPart := lastPart s;
     finalizing := finalizing s; closed := closed s |}.

Definition setBuffered (s : Source) (buf : bytes) : Source :=
  {| boundary := boundary s; parts := parts s; pull := pull s; buffered := buf;
     firstHeadingWritten := firstHeadingWritten s; lastPart := lastPart s;
     finalizing := finalizing s; closed := closed s |}.

Definition setLastPart (s : Source) (p : option nat) : Source :=
  {| boundary := boundary s; parts := parts s; pull := pull s; buffered := buffered s;
     firstHeadingWritten := firstHeadingWritten s; lastPart := p;
     finalizing := finalizing s; closed := closed s |}.

Definition setFinalizing (s : Source) (f : bool) : Source :=
  {| boundary := boundary s; parts := parts s; pull := pull s; buffered := buffered s;
     firstHeadingWritten := firstHeadingWritten s; lastPart := lastPart s;
     finalizing := f; closed := closed s |}.

Definition setBoundary (s : Source) (b : string) : Source :=
  {| boundary := b; parts := parts s; pull := pull s; buffered := buffered s;
     firstHeadingWritten := firstHeadingWritten s; lastPart := lastPart s;
     finalizing := finalizing s; closed := closed s |}.

Abbreviation readOutcome := (bytes * option error * Source * Heap)%type.

(** [Source.Read] once the part to stream is settled: drain the buffer, then
    either report the end (when finalizing) or read the part's content into
    what is left of [p]. *)
Definition readBody (s : Source) (h : Heap) (n : nat) : exec readOutcome :=
  let drained : bytes * option error * Source :=
    if decide (0 < length (buffered s)) then
      let '(bufRead, bufReadErr, buf) := bufferRead (buffered s) n in
      let s := setBuffered s buf in
      match bufReadErr with
      | None => (bufRead, None, s)
      | Some e => if isEOF e then ([], None, s) else (bufRead, Some e, s)
      end
    else ([], None, s) in
  let '(bs1, bufErr, s) := drained in
  match bufErr with
  | Some e => Ok (bs1, Some e, s, h)
  | None =>
      if finalizing s then
        if decide (0 < length bs1) then Ok (bs1, None, s, h)
        else Ok ([], Some EOF, s, h)
      else
        match lastPart s with
        | None => Panic "nil pointer dereference"
        | Some ptr =>
            match h !! ptr with
            | None => Panic "invalid pointer"
            | Some part =>
                match Content part with
                | None => Panic "nil pointer dereference"
                | Some r =>
                    let '(bs2, readErr, r') := Read r (n - length bs1) in
                    let h := <[ptr := setContent part (Some r')]> h in
                    match readErr with
                    | Some e =>
                        if isEOF e then Ok (bs1 ++ bs2, None, setLastPart s None, h)
                        else Ok (bs1 ++ bs2, Some e, s, h)
                    | None => Ok (bs1 ++ bs2, None, s, h)
                    end
                end
            end
        end
  end.

(** [Source.Read(p)] with [len(p) = n]. *)
Definition Source_Read (s : Source) (h : Heap) (n : nat) : exec readOutcome :=
  if closed s then Ok ([], Some ErrClosed, s, h)
  else
    let s := match pull s with
             | None => setPull s (Some (parts s))     (* iter.Pull2(s.parts) *)
             | Some _ => s
             end in
    if bool_decide (lastPart s = None) && negb (finalizing s) then
      match pull s with
      | Some ((part, err) :: rest) =>
          let s := setPull s (Some rest) in
          match err with
          | Some e => Ok ([], Some e, s, h)
          | None =>
              let s := setLastPart s part in
              match part with
              | None => Panic "nil pointer dereference"
              | Some ptr =>
                  match h !! ptr with
                  | None => Panic "invalid pointer"
                  | Some pt => readBody (populatePartHeading s pt) h n
                  end
              end
          end
      | _ =>
          (* the sequence is exhausted: finalize *)
          let s := populateEnding (setFinalizing s true) in
          let '(bs, e, buf) := bufferRead (buffered s) n in
          Ok (bs, e, setBuffered s buf, h)
      end
    else readBody s h n.

(** A consumer that calls [Read] with a buffer of [c] bytes until it gets
    an error; [EOF] is the end of the stream.  [None]: out of fuel. *)
Fixpoint readAll (c : nat) (fuel : nat) (s : Source) (h : Heap)
  : option (exec (bytes * error)) :=
  match fuel with
  | 0 => None
  | S fuel =>
      match Source_Read s h c with
      | Panic msg => Some (Panic msg)
      | Ok (bs, Some e, _, _) => Some (Ok (bs, e))
      | Ok (bs, None, s, h) =>
          match readAll c fuel s h with
          | Some (Ok (out, e)) => Some (Ok (bs ++ out, e))
          | r => r
          end
      end
  end.

(** ** Boundaries *)

(** What [for i, b := range boundary] yields for the rune that starts a
    string: an ASCII byte as it is, and for a first byte of 0x80 or more
    either a rune of several bytes or [utf8.RuneError] with width 1.  Every
    such rune is U+0080 or more, and the program compares runes with ASCII
    characters only, so their code points are left out. *)
Inductive rune : Type :=
| RuneAscii (c : ascii)
| RuneMulti
| RuneError.

Definition byteIn (lo hi : nat) (c : ascii) : bool :=
  let n := nat_of_ascii c in bool_decide (lo ≤ n ∧ n ≤ hi).

Definition isCont (c : ascii) : bool := byteIn 0x80 0xBF c.

(** utf8.DecodeRuneInString: the rune and its width in bytes. *)
Definition decodeRune (s : bytes) : rune * nat :=
  match s with
  | [] => (RuneError, 0)
  | s0 :: rest =>
      let n0 := nat_of_ascii s0 in
      if bool_decide (n0 < 0x80) then (RuneAscii s0, 1)
      else if byteIn 0xC2 0xDF s0 then
        match rest with
        | s1 :: _ => if isCont s1 then (RuneMulti, 2) else (RuneError, 1)
        | _ => (RuneError, 1)
        end
      else if byteIn 0xE0 0xEF s0 then
        match rest with
        | s1 :: s2 :: _ =>
            let lo := if bool_decide (n0 = 0xE0) then 0xA0 else 0x80 in
            let hi := if bool_decide (n0 = 0xED) then 0x9F else 0xBF in
            if byteIn lo hi s1 && isCont s2 then (RuneMulti, 3) else (RuneError, 1)
        | _ => (RuneError, 1)
        end
      else if byteIn 0xF0 0xF4 s0 then
        match rest with
        | s1 :: s2 :: s3 :: _ =>
            let lo := if bool_decide (n0 = 0xF0) then 0x90 else 0x80 in
            let hi := if bool_decide (n0 = 0xF4) then 0x8F else 0xBF in
            if byteIn lo hi s1 && isCont s2 && isCont s3 then (RuneMulti, 4)
            else (RuneError, 1)
        | _ => (RuneError, 1)
        end
      else (RuneError, 1)
  end.

(** The body of the loop of [SetBoundary]: is rune [b] at byte index [i]
    acceptable? *)
Definition boundaryRuneOk (end_ : Z) (i : Z) (b : rune) : bool :=
  match b with
  | RuneAscii c =>
      byteIn 65 90 c || byteIn 97 122 c || byteIn 48 57 c
      || bool_decide (c ∈ String.list_ascii_of_string "'()+_,-./:=?")
      || (bool_decide (c = " "%char) && bool_decide (i ≠ end_))
  | _ => false
  end.

(** [for i, b := range boundary]: [skip] counts the bytes of the current
    rune that are still to be passed over. *)
Fixpoint boundaryLoop (end_ : Z) (i : Z) (skip : nat) (s : bytes) : bool :=
  match s with
  | [] => true
  | _ :: rest =>
      match skip with
      | S k => boundaryLoop end_ (i + 1) k rest
      | 0 =>
          let '(b, size) := decodeRune s in
          if boundaryRuneOk end_ i b then boundaryLoop end_ (i + 1) (size - 1) rest
          else false
      end
  end.

Definition Source_SetBoundary (s : Source) (b : string) : Source * option error :=
  match lastPart s with
  | Some _ => (s, Some ErrSetBoundaryAfterRead)
  | None =>
      let len := Z.of_nat (String.length b) in
      if bool_decide (len < 1 ∨ 70 < len)%Z then (s, Some ErrBoundaryLength)
      else if boundaryLoop (len - 1) 0 0 (bytes_of b) then (setBoundary s b, None)
      else (s, Some ErrBoundaryCharacter)
  end.

Definition Boundary (s : Source) : string := boundary s.

Definition FormDataContentType (s : Source) : string :=
  FormatMediaType "multipart/form-data" {["boundary" := boundary s]}.

(** [s.stop()]: the pull iterator yields nothing any more. *)
Definition stopPull (s : Source) : Source :=
  match pull s with
  | None => s
  | Some _ => setPull s (Some [])
  end.

Definition Source_Close (s : Source) : Source * option error :=
  let s := stopPull s in
  ({| boundary := ""; parts := parts s; pull := pull s; buffered := [];
      firstHeadingWritten := false; lastPart := None; finalizing := false;
      closed := true |}, None).

Definition Source_Reset (s : Source) (ps : PartSeq2) (rnd : bytes) : Source :=
  let s := stopPull s in
  {| boundary := hexOf (take 30 rnd); parts := ps; pull := pull s; buffered := [];
     firstHeadingWritten := false; lastPart := None; finalizing := false;
     closed := false |}.

(** ** Bulk copy *)

(** The sink of [WriteTo]: an [io.Writer] that keeps what it is given and
    may be an [io.ReaderFrom] as well. *)
Record Sink : Type := mkSink {
  written : bytes;
  isReaderFrom : bool;
}.

Definition sinkWrite (t : Sink) (bs : bytes) : Sink :=
  {| written := written t ++ bs; isReaderFrom := isReaderFrom t |}.

(** The content readers that are an [io.WriterTo]. *)
Definition hasWriterTo (r : Reader) : bool :=
  match r with
  | RSeek _ _ _ | RMulti _ | RBufio _ _ _ _ => true
  | RStream _ _ _ | RError _ | RLimited _ _ => false
  end.

(** The loop of the standard copy routines: read [chunk] bytes at a time
    and write them, until the reader reports an error; [io.EOF] itself ends
    the copy without an error.  [None]: out of fuel. *)
Fixpoint copyLoop (fuel chunk : nat) (r : Reader) (t : Sink)
  : option (nat * option error * Reader * Sink) :=
  match fuel with
  | 0 => None
  | S fuel =>
      let '(bs, er, r) := Read r chunk in
      let t := sinkWrite t bs in
      match er with
      | Some e => Some (length bs, (if decide (e = EOF) then None else Some e), r, t)
      | None =>
          '(n, e, r, t) ← copyLoop fuel chunk r t;
          Some (length bs + n, e, r, t)
      end
  end.

Definition defaultChunk : nat := 32 * 1024.

(** io.CopyBuffer(dst, src, buf): [buf] is [None] for a nil slice. *)
Definition ioCopyBuffer (fuel : nat) (t : Sink) (r : Reader) (buf : option bytes)
  : option (exec (nat * option error * Reader * Sink)) :=
  match buf with
  | Some [] => Some (Panic "empty buffer in CopyBuffer")
  | Some b => Ok <$> copyLoop fuel (length b) r t
  | None => Ok <$> copyLoop fuel defaultChunk r t
  end.

(** bytes.Buffer: [Reset] empties it, [Grow] reserves capacity and leaves
    the contents as they are, [Bytes] is the unread contents, a slice that is
    not nil once capacity was reserved. *)
Definition bufferReset (buf : bytes) : bytes := [].
Definition bufferGrow (buf : bytes) (n : nat) : bytes := buf.
Definition bufferBytes (buf : bytes) : option bytes := Some buf.

Definition writePartContent (fuel : nat) (s : Source) (content : option Reader) (t : Sink)
  : option (exec (nat * option error * Source * option Reader * Sink)) :=
  match content with
  | None => Some (Panic "nil pointer dereference")
  | Some r =>
      if hasWriterTo r then
        '(n, e, r, t) ← copyLoop fuel defaultChunk r t;
        Some (Ok (n, e, s, Some r, t))
      else if isReaderFrom t then
        '(n, e, r, t) ← copyLoop fuel defaultChunk r t;
        Some (Ok (n, e, s, Some r, t))
      else
        let bufferSize :=
          match r with
          | RLimited _ N =>
              if bool_decide (N < Z.of_nat defaultChunk)%Z then
                (if bool_decide (N < 1)%Z then 1 else Z.to_nat N)
              else defaultChunk
          | _ => defaultChunk
          end in
        let s := setBuffered s (bufferGrow (bufferReset (buffered s)) bufferSize) in
        x ← ioCopyBuffer fuel t r (bufferBytes (buffered s));
        Some ('(n, e, r, t) ← x; Ok (n, e, s, Some r, t))
  end.

(** The loop of [WriteTo] over the sequence. *)
Fixpoint writeParts (fuel : nat) (items : PartSeq2) (n : nat) (s : Source) (h : Heap) (t : Sink)
  : option (exec (nat * option error * Source * Heap * Sink)) :=
  match items with
  | [] =>
      (* the sequence is over: finalize *)
      let s := populateEnding s in
      let t := sinkWrite t (buffered s) in
      Some (Ok (n + length (buffered s), None, setBuffered s [], h, t))
  | (_, Some err) :: _ => Some (Ok (n, Some err, s, h, t))
  | (None, None) :: _ => Some (Panic "nil pointer dereference")
  | (Some ptr, None) :: rest =>
      match h !! ptr with
      | None => Some (Panic "invalid pointer")
      | Some part =>
          let s := populatePartHeading s part in
          let t := sinkWrite t (buffered s) in
          let n := n + length (buffered s) in
          let s := setBuffered s [] in
          x ← writePartContent fuel s (Content part) t;
          match x with
          | Panic msg => Some (Panic msg)
          | Ok (contentSize, err, s, c, t) =>
              let h := <[ptr := setContent part c]> h in
              let n := n + contentSize in
              match err with
              | Some e => Some (Ok (n, Some e, s, h, t))
              | None => writeParts fuel rest n s h t
              end
          end
      end
  end.

Definition Source_WriteTo (fuel : nat) (s : Source) (h : Heap) (t : Sink)
  : option (exec (nat * option error * Source * Heap * Sink)) :=
  if closed s then Some (Ok (0, Some ErrClosed, s, h, t))
  else writeParts fuel (parts s) 0 s h t.

Definition hdr1 : MIMEHeader :=
  <["A" := ["2"]]> (<["B" := ["5"; "7"; "6"]]> (<["C" := ["4"]]>
    (<["M" := ["3"]]> (<["Z" := ["1"]]> ∅)))).
Definition part1 : Part :=
  SetContentString {| Header := Some hdr1; Content := None; disposition := "";
                      dispositionParams := PNil; signature := None |} "foo".

(** ** The boundary rule, in the words of the specification *)

Definition boundaryChar (c : ascii) : bool :=
  byteIn 65 90 c || byteIn 97 122 c || byteIn 48 57 c
  || bool_decide (c ∈ String.list_ascii_of_string "'()+_,-./:=?").

(** Length 1 to 70; every character a letter, a digit or one of
    [' ( ) + _ , - . / : = ?], or a space that is not the last character. *)
Definition validBoundary (b : string) : Prop :=
  let bs := bytes_of b in
  1 ≤ length bs ≤ 70 ∧
  ∀ i c, bs !! i = Some c →
         boundaryChar c = true ∨ (c = " "%char ∧ S i ≠ length bs).

(** The examples stream parts that carry a content only. *)
Definition contentPart (content : string) : Part := SetContentString NewPart content.

Definition twoParts : Heap := [contentPart "foo"; contentPart "bar"].

Definition srcAAA : Source :=
  (Source_SetBoundary (NewSource (PartSeq [Some 0; Some 1]) []) "AAA").1.

(** The bytes, the error, and the source and heap after [Read], for a call
    that does not panic. *)
Definition afterRead (x : exec readOutcome) : Source * Heap :=
  match x with
  | Ok (_, _, s, h) => (s, h)
  | Panic _ => (NewSource [] [], [])
  end.

Definition readBytes (x : exec readOutcome) : option (string * option error) :=
  match x with
  | Ok (bs, e, _, _) => Some (String.string_of_list_ascii bs, e)
  | Panic _ => None
  end.

Definition srcEmptyAAA : Source := (Source_SetBoundary (NewSource (PartSeq []) []) "AAA").1.

(** The calls a client can make on a source, [Reset] apart. *)
Inductive call : Type :=
| CallRead (n : nat)
| CallWriteTo (fuel : nat) (t : Sink)
| CallSetBoundary (b : string)
| CallBoundary
| CallFormDataContentType
| CallClose.

(** What a call gives back: a byte count and an error, or a string. *)
Inductive reply : Type :=
| Counted (n : nat) (e : option error)
| Errored (e : option error)
| Text (v : string)
| Panicked
| Unfinished.

Definition perform (s : Source) (h : Heap) (c : call) : reply * Source * Heap :=
  match c with
  | CallRead n =>
      match Source_Read s h n with
      | Ok (bs, e, s, h) => (Counted (length bs) e, s, h)
      | Panic _ => (Panicked, s, h)
      end
  | CallWriteTo fuel t =>
      match Source_WriteTo fuel s h t with
      | Some (Ok (n, e, s, h, _)) => (Counted n e, s, h)
      | Some (Panic _) => (Panicked, s, h)
      | None => (Unfinished, s, h)
      end
  | CallSetBoundary b => let '(s, e) := Source_SetBoundary s b in (Errored e, s, h)
  | CallBoundary => (Text (Boundary s), s, h)
  | CallFormDataContentType => (Text (FormDataContentType s), s, h)
  | CallClose => let '(s, e) := Source_Close s in (Errored e, s, h)
  end.

Fixpoint performAll (s : Source) (h : Heap) (cs : list call) : list reply :=
  match cs with
  | [] => []
  | c :: cs => let '(r, s, h) := perform s h c in r :: performAll s h cs
  end.

(** The part an operation returns, and its Content-Type. *)
Definition partOf (x : exec (gmap string string * Part)) : Part :=
  match x with
  | Ok (_, p) => p
  | Panic _ => NewPart
  end.

Definition contentTypeOf (x : exec (gmap string string * Part)) : option string :=
  match x with
  | Ok (_, p) => Some (ContentType p)
  | Panic _ => None
  end.

Definition textPart : Part :=
  SetContentType (partOf (SetFormName ∅ NewPart "myfile")) "text/plain".

(** ** Reading a source to its end *)

(** With enough fuel, the consumer ends with output [out] and error [e]. *)
Definition readsOut (c : nat) (s : Source) (h : Heap) (out : bytes) (e : error) : Prop :=
  ∃ fuel0, ∀ fuel, fuel0 ≤ fuel → readAll c fuel s h = Some (Ok (out, e)).

(** A run of [Read] calls that report no error. *)
Inductive runsTo (c : nat) : Source → Heap → bytes → Source → Heap → Prop :=
| runs_refl s h : runsTo c s h [] s h
| runs_step s h bs s1 h1 out s2 h2 :
    Source_Read s h c = Ok (bs, None, s1, h1) →
    runsTo c s1 h1 out s2 h2 →
    runsTo c s h (bs ++ out) s2 h2.

(** The state in which [Read] goes on with the part or trailer at hand. *)
Definition pulled (s : Source) : Source :=
  match pull s with
  | None => setPull s (Some (parts s))
  | Some _ => s
  end.

(** ** Streaming one part *)

(** A part whose content is set and ends with [EOF]. *)
Definition goodPart (p : Part) : Prop :=
  match Content p with
  | Some r => wfReader r ∧ isEOF (stream r).2 = true
  | None => False
  end.

(** The bytes the content of the part at [ptr] has yet to deliver. *)
Definition contentBytes (h : Heap) (ptr : nat) : bytes :=
  match h !! ptr with
  | Some p => match Content p with Some r => (stream r).1 | None => [] end
  | None => []
  end.

Definition headerAt (h : Heap) (ptr : nat) : option MIMEHeader :=
  match h !! ptr with
  | Some p => Header p
  | None => None
  end.

(** [s'] differs from [s] in the buffer and the part being streamed only. *)
Definition sameConfig (s s' : Source) : Prop :=
  boundary s' = boundary s ∧ parts s' = parts s ∧ pull s' = pull s ∧
  firstHeadingWritten s' = firstHeadingWritten s ∧ closed s' = closed s ∧
  finalizing s' = finalizing s.

(** [h'] differs from [h] in the state of the content of the part at [ptr]
    only. *)
Definition contentMoved (ptr : nat) (h h' : Heap) : Prop :=
  length h' = length h ∧ (∀ q, q ≠ ptr → h' !! q = h !! q) ∧
  headerAt h' ptr = headerAt h ptr ∧ Forall goodPart h'.

(** ** Reading a whole sequence *)

(** The pairs the sequence has yet to yield. *)
Definition pending (s : Source) : PartSeq2 :=
  match pull s with
  | Some l => l
  | None => parts s
  end.

(** The encoding of the parts at [ptrs]: for each its heading and its
    content, then the trailer. *)
Fixpoint encodeParts (b : string) (first : bool) (h : Heap) (ptrs : list nat) : bytes :=
  match ptrs with
  | [] => ending b
  | ptr :: rest =>
      partHeading first b (headerAt h ptr) ++ contentBytes h ptr ++
      encodeParts b false h rest
  end.

(** ** Bulk copy of a whole sequence *)

(** A part whose content [WriteTo] can move into a sink that is, or is
    not, an [io.ReaderFrom]: the content is itself an [io.WriterTo] or the
    sink reads from it, and it ends with [io.EOF] itself. *)
Definition copyable (rf : bool) (p : Part) : Prop :=
  match Content p with
  | Some r => wfReader r ∧ (stream r).2 = EOF ∧ (hasWriterTo r = true ∨ rf = true)
  | None => False
  end.

(** ** The encoded output *)

(** A source on which nothing was read or written yet. *)
Definition fresh (s : Source) : Prop :=
  pull s = None ∧ buffered s = [] ∧ firstHeadingWritten s = false ∧
  lastPart s = None ∧ finalizing s = false ∧ closed s = false.

Definition sortedHeaderSource (rnd : bytes) : Source :=
  (Source_SetBoundary (NewSource (PartSeq [Some 0]) rnd) "MIMEBOUNDARY").1.

Definition sortedHeaderOutput : bytes :=
  bytes_of ("--MIMEBOUNDARY" +:+ CRLF +:+ "A: 2" +:+ CRLF +:+ "B: 5" +:+ CRLF +:+
            "B: 7" +:+ CRLF +:+ "B: 6" +:+ CRLF +:+ "C: 4" +:+ CRLF +:+ "M: 3" +:+ CRLF +:+
            "Z: 1" +:+ CRLF +:+ CRLF +:+ "foo" +:+ CRLF +:+ "--MIMEBOUNDARY--" +:+ CRLF).

Definition emptyContentHeap : Heap := [contentPart ""].

Definition srcOneAAA : Source :=
  (Source_SetBoundary (NewSource (PartSeq [Some 0]) []) "AAA").1.

(** What the sink of a [WriteTo] holds, for a call that returned no error. *)
Definition writtenBy (x : option (exec (nat * option error * Source * Heap * Sink)))
  : option string :=
  match x with
  | Some (Ok (_, None, _, _, t)) => Some (String.string_of_list_ascii (written t))
  | _ => None
  end.

Definition readBy (x : option (exec (bytes * error))) : option string :=
  match x with
  | Some (Ok (out, EOF)) => Some (String.string_of_list_ascii out)
  | _ => None
  end.

(** ** Content-type sniffing *)

(** errors.Is(err, io.ErrUnexpectedEOF) *)
Fixpoint isUnexpectedEOF (e : error) : bool :=
  match e with
  | ErrUnexpectedEOF => true
  | ErrWrap _ e' => isUnexpectedEOF e'
  | _ => false
  end.

(** The loop of io.ReadAtLeast: [for n < min && err == nil], with [acc] the
    bytes read so far. *)
Fixpoint readFullLoop (fuel : nat) (r : Reader) (min : nat) (acc : bytes)
  : option (bytes * option error * Reader) :=
  if decide (min ≤ length acc) then Some (acc, None, r)
  else
    match fuel with
    | 0 => None
    | S fuel =>
        let '(bs, e, r) := Read r (min - length acc) in
        match e with
        | None => readFullLoop fuel r min (acc ++ bs)
        | Some err => Some (acc ++ bs, Some err, r)
        end
    end.

(** io.ReadFull(r, buf) with [len(buf) = size]. *)
Definition ioReadFull (fuel : nat) (r : Reader) (size : nat)
  : option (bytes * option error * Reader) :=
  '(got, err, r) ← readFullLoop fuel r size [];
  let err :=
    if decide (size ≤ length got) then None
    else match err with
         | Some e =>
             if decide (0 < length got ∧ e = EOF) then Some ErrUnexpectedEOF else Some e
         | None => None
         end in
  Some (got, err, r).

Definition zeroByte : ascii := ascii_of_nat 0.

(** bufio.NewReaderSize(rd, size) *)
Definition NewReaderSize (rd : Reader) (size : nat) : Reader :=
  match rd with
  | RBufio sz _ _ _ => if decide (size ≤ sz) then rd else RBufio (size `max` 16) [] None rd
  | _ => RBufio (size `max` 16) [] None rd
  end.

(** The loop of bufio.Reader.fill: up to [i] reads until one brings bytes or
    an error. *)
Fixpoint fillLoop (i : nat) (size : nat) (buf : bytes) (rd : Reader)
  : bytes * option error * Reader :=
  match i with
  | 0 => (buf, Some ErrNoProgress, rd)
  | S i =>
      let '(bs, e, rd) := Read rd (size - length buf) in
      let buf := buf ++ bs in
      match e with
      | Some err => (buf, Some err, rd)
      | None => if decide (0 < length bs) then (buf, None, rd) else fillLoop i size buf rd
      end
  end.

Definition maxConsecutiveEmptyReads : nat := 100.

(** bufio.Reader.fill *)
Definition bufioFill (size : nat) (buf : bytes) (rd : Reader)
  : exec (bytes * option error * Reader) :=
  if decide (size ≤ length buf) then Panic "bufio: tried to fill full buffer"
  else Ok (fillLoop maxConsecutiveEmptyReads size buf rd).

(** The loop of bufio.Reader.Peek(n): fill while fewer than [n] bytes are
    buffered, the buffer is not full and no error is held.  Every turn adds a
    byte or sets the error, so [fuel] turns, [fuel] more than the buffer
    size, are enough. *)
Fixpoint peekLoop (fuel : nat) (n size : nat) (buf : bytes) (err : option error) (rd : Reader)
  : exec (bytes * option error * Reader) :=
  match fuel with
  | 0 => Ok (buf, err, rd)
  | S fuel =>
      if decide (length buf < n ∧ length buf < size ∧ err = None) then
        '(buf, err, rd) ← bufioFill size buf rd;
        peekLoop fuel n size buf err rd
      else Ok (buf, err, rd)
  end.

(** bufio.Reader.Peek(n) for [n] not above the buffer size: the bytes, and
    the reader afterwards; the error it returns is dropped by the caller, and
    returning it clears it in the reader. *)
Definition bufioPeek (br : Reader) (n : nat) : exec (bytes * Reader) :=
  match br with
  | RBufio size buf err rd =>
      '(buf, err, rd) ← peekLoop (S size) n size buf err rd;
      if decide (length buf < n) then Ok (buf, RBufio size buf None rd)
      else Ok (take n buf, RBufio size buf err rd)
  | _ => Panic "not a bufio.Reader"
  end.

Definition sniffLen : nat := 512.

Section Sniffing.
(** http.DetectContentType *)
Variable httpDetectContentType : bytes → string.

(** [DetectContentType] with a [bufio.Reader]. *)
Definition DetectContentType (p : Part) : exec Part :=
  match Content p with
  | None => Panic "nil pointer dereference"
  | Some rd =>
      let br := NewReaderSize rd sniffLen in
      '(signature, br) ← bufioPeek br sniffLen;
      Ok (SetContentType (SetContent p br) (httpDetectContentType signature))
  end.

(** [DetectContentType] with [io.ReadFull] into the part's signature
    buffer, and a rewind or an [io.MultiReader] afterwards. *)
Definition DetectContentType_ReadFull (fuel : nat) (p : Part) : option (exec Part) :=
  match Content p with
  | None => Some (Panic "nil pointer dereference")
  | Some rd =>
      let old := default (replicate 512 zeroByte) (signature p) in
      '(got, err, rd) ← ioReadFull fuel rd (length old);
      let sig := got ++ drop (length got) old in
      let p := setSignature (setContent p (Some rd)) (Some sig) in
      Some (Ok
        match err with
        | None =>
            let p := SetContentType p (httpDetectContentType sig) in
            match rd with
            | RSeek k data pos =>
                match k with
                | KFile (Some e) =>
                    SetContent p (RError (ErrWrap "seek after detecting content type" e))
                | _ => setContent p (Some (RSeek k data 0))
                end
            | _ => SetContent p (RMulti [RSeek KBytes sig 0; rd])
            end
        | Some e =>
            if isEOF e || isUnexpectedEOF e then
              SetContentBytes (SetContentType p (httpDetectContentType got)) got
            else
              SetContent p (RError (ErrWrap "peeking content for detecting content type" e))
        end)
  end.
End Sniffing.

(** The kind and the data of a reader that can seek. *)
Definition seekView (r : Reader) : option (seekKind * bytes) :=
  match r with
  | RSeek k data _ => Some (k, data)
  | _ => None
  end.



Definition htmlPart : Part := contentPart "<html><body>test</body></html>".


(** ** Well-formed heaps *)

(** Every content that is set is a well-formed reader. *)
Definition contentsWf (h : Heap) : Prop :=
  Forall (λ p, ∀ r, Content p = Some r → wfReader r) h.

#[global] Instance strLe_total : Total strLe.
Proof. intros a b. unfold strLe. apply String.leb_total. Qed.

(** ** File names *)

Section FileNames.
Variable ParseMediaType : string → string * option (gmap string string) * option error.
(** filepath.Base *)
Variable filepathBase : string → string.

Definition FileName (g : gmap string string) (p : Part) : string * Part :=
  let p := parseContentDisposition ParseMediaType p in
  let filename := default "" (paramsMap g (dispositionParams p) !! "filename") in
  if bool_decide (filename = "") then ("", p) else (filepathBase filename, p).
End FileNames.

(** ** Example parsers, parts and sequences *)

(** A parser that rejects every value. *)
Definition noParse : string → string * option (gmap string string) * option error :=
  λ _, ("", None, Some (ErrOther "mime: no media type")).

(** What mime.ParseMediaType makes of [form-data; name=foo]. *)
Definition parseFoo : string → string * option (gmap string string) * option error :=
  λ _, ("form-data", Some {["name" := "foo"]}, None).

Definition headerOnlyPart : Part :=
  setHeader NewPart (Some {[contentDispositionHeader := ["form-data; name=foo"]]}).

(** A part whose content breaks after two bytes. *)
Definition failingPart : Part :=
  SetContent NewPart (RStream 0 (bytes_of "ab") (ErrOther "broken pipe")).

(** A sequence that yields one part and then an error. *)
Definition failingSeq : PartSeq2 :=
  PartSeq [Some 0] ++ [(None, Some (ErrOther "no more parts"))].

Definition srcFailing : Source :=
  (Source_SetBoundary (NewSource failingSeq []) "AAA").1.

(** * Properties *)

(** ** What one Read does to a reader *)

Lemma take_drop_length {A} (l : list A) n :
  take n l ++ drop (length (take n l)) l = l.
Proof.
  rewrite length_take. destruct (decide (n ≤ length l)).
  - replace (n `min` length l) with n by lia. apply take_drop.
  - replace (n `min` length l) with (length l) by lia.
    rewrite take_ge, drop_all by lia. apply app_nil_r.
Qed.

Lemma take_nonempty {A} (l : list A) n : 0 < n → l ≠ [] → take n l ≠ [].
Proof. destruct l, n; simpl; intros; done || lia. Qed.

Lemma readSpec_Seek k data pos n : readSpec (RSeek k data pos) n.
Proof.
  unfold readSpec; simpl. case_decide as Hp.
  - split_and!; [simpl; lia|done|done| |]; simpl; by rewrite drop_ge.
  - split_and!; [rewrite length_take; lia|done| |].
    + simpl. by rewrite <- drop_drop, take_drop_length.
    + intros Hn. apply take_nonempty; [done|].
      intros Hnil. apply (f_equal length) in Hnil.
      rewrite length_drop in Hnil. simpl in Hnil. lia.
Qed.

Lemma readSpec_Stream chunk rest fail n : readSpec (RStream chunk rest fail) n.
Proof.
  unfold readSpec; simpl. destruct rest as [|b rest].
  { split_and!; done || (simpl; lia). }
  set (l := b :: rest). split_and!; [|done| |].
  - rewrite length_take. lia.
  - simpl. by rewrite take_drop_length.
  - intros Hn. apply take_nonempty; [lia|done].
Qed.

Lemma readSpec_Limited rd N n :
  wfReader rd → (∀ m, readSpec rd m) → readSpec (RLimited rd N) n.
Proof.
  intros Hwf IH. unfold readSpec. simpl. case_decide as HN.
  - split_and!; simpl; [lia|done|done| |].
    all: destruct (stream rd) as [bs0 e0];
      (case_decide; [lia|]); by replace (Z.to_nat N) with 0 by lia.
  - set (n' := if decide (N < Z.of_nat n)%Z then Z.to_nat N else n).
    assert (Hn' : n' ≤ n ∧ (Z.of_nat n' ≤ N)%Z ∧ (0 < n → 0 < n')).
    { subst n'. case_decide; lia. }
    specialize (IH n'). unfold readSpec in IH.
    destruct (Read rd n') as [[bs e] rd']. destruct IH as (Hlen & Hwf' & He).
    split; [lia|]. split; [done|]. destruct e as [err|].
    + destruct He as (-> & Hs & Hs'). simpl. rewrite Hs, Hs'. simpl.
      split_and!; [done| |]; case_decide; done || lia.
    + destruct He as [Hs Hprog]. split; [|intros; apply Hprog; lia].
      simpl. rewrite Hs. destruct (stream rd') as [s' e']. simpl.
      rewrite length_app. repeat case_decide; try lia; [done|].
      f_equal. rewrite take_app. rewrite take_ge by lia. simpl. do 2 f_equal. lia.
Qed.

Lemma readSpec_Bufio size buf err rd n :
  wfReader (RBufio size buf err rd) → (∀ m, readSpec rd m) →
  readSpec (RBufio size buf err rd) n.
Proof.
  intros (Hsize & Hwf & Herr) IH. unfold readSpec.
  destruct n as [|n].
  { simpl. destruct buf as [|b buf].
    - destruct err as [e|]; simpl; split_and!; try done; try lia.
      by rewrite Herr.
    - split_and!; try done; try (simpl; lia). simpl. by destruct err. }
  destruct buf as [|b buf].
  2:{ cbn [Read]. split_and!; [rewrite length_take; lia|done| |].
      - simpl. destruct err; simpl; by rewrite ?app_assoc, take_drop.
      - intros _. by apply take_nonempty; [lia|]. }
  destruct err as [e|].
  { simpl. split_and!; try done; try lia. by rewrite Herr. }
  cbn [Read]. case_decide as Hsz.
  - specialize (IH (S n)). unfold readSpec in IH.
    destruct (Read rd (S n)) as [[bs e] rd']. destruct IH as (Hlen & Hwf' & He).
    split_and!; [done|done| ].
    destruct e as [e|]; simpl in *; by rewrite <- !surjective_pairing.
  - specialize (IH size). unfold readSpec in IH.
    destruct (Read rd size) as [[bs e] rd']. destruct IH as (Hlen & Hwf' & He).
    destruct bs as [|b bs].
    + split_and!; [simpl; lia|done|].
      destruct e as [e|]; simpl in *; [by rewrite <- !surjective_pairing|].
      destruct He as [_ Hp]. by specialize (Hp Hsize).
    + set (l := b :: bs) in *. destruct e as [e|].
      { by destruct He as (? & _). }
      destruct He as [Hs _]. split_and!; [rewrite length_take; lia|done| |].
      * simpl. by rewrite Hs, app_assoc, take_drop.
      * intros _. apply take_nonempty; [lia|done].
Qed.

Lemma Read_Multi rs n :
  Read (RMulti rs) n = let '(bs, e, rs') := readMulti n rs in (bs, e, RMulti rs').
Proof. reflexivity. Qed.

Lemma stream_Multi rs : stream (RMulti rs) = streamMulti rs.
Proof. reflexivity. Qed.

Lemma wfReader_Multi rs : wfReader (RMulti rs) ↔ Forall wfReader rs.
Proof.
  induction rs as [|r0 rest IH]; [by split; constructor|].
  rewrite Forall_cons. rewrite <- IH. done.
Qed.

Lemma readMulti_spec n rs :
  Forall (λ r, wfReader r → ∀ m, readSpec r m) rs → Forall wfReader rs →
  let '(bs, e, rs') := readMulti n rs in
  length bs ≤ n ∧ Forall wfReader rs' ∧
  match e with
  | None => streamMulti rs = (bs ++ (streamMulti rs').1, (streamMulti rs').2)
            ∧ (0 < n → bs ≠ [])
  | Some err => bs = [] ∧ streamMulti rs = ([], err) ∧ streamMulti rs' = ([], err)
  end.
Proof.
  intros IH. induction IH as [|r0 rest IH0 _ IHrest]; intros Hwf.
  { simpl. split_and!; done || lia. }
  apply Forall_cons in Hwf as [Hwf0 Hwf]. specialize (IHrest Hwf).
  specialize (IH0 Hwf0 n). unfold readSpec in IH0. cbn [readMulti streamMulti].
  destruct (Read r0 n) as [[bs e] r0']. destruct IH0 as (Hlen & Hwf0' & He).
  destruct e as [e|].
  - destruct He as (-> & Hs & Hs'). rewrite Hs. destruct (decide (e = EOF)) as [->|Hne].
    + rewrite decide_False by (simpl; intros [?|?]; done || lia).
      simpl. rewrite <- surjective_pairing.
      destruct (readMulti n rest) as [[bs e] rs']. done.
    + rewrite decide_True by (right; congruence).
      repeat (rewrite decide_False by (first [congruence | intros [? _]; congruence])).
      split_and!; [simpl; lia|by constructor|done|done|].
      cbn [streamMulti]. rewrite Hs'. by rewrite decide_False.
  - destruct He as [Hs Hp]. rewrite decide_True by (by right).
    repeat (rewrite decide_False by (first [congruence | intros [? _]; congruence])).
    split_and!; [done|by constructor| |done].
    cbn [streamMulti]. rewrite Hs. destruct (stream r0') as [s' e']. simpl.
    case_decide; [|done]. simpl. by rewrite app_assoc.
Qed.

Lemma readSpec_Multi rs n :
  wfReader (RMulti rs) → Forall (λ r, wfReader r → ∀ m, readSpec r m) rs →
  readSpec (RMulti rs) n.
Proof.
  intros Hwf%wfReader_Multi IH. unfold readSpec. rewrite Read_Multi.
  pose proof (readMulti_spec n rs IH Hwf) as H.
  destruct (readMulti n rs) as [[bs e] rs']. destruct H as (? & ? & ?).
  split_and!; [done|by apply wfReader_Multi|]. by rewrite !stream_Multi.
Qed.

Theorem Read_spec r : wfReader r → ∀ n, readSpec r n.
Proof.
  induction r as [k data pos|chunk rest fail|e|rs IH|size buf err rd IH|rd N IH]
    using Reader_nested_ind; intros Hwf n.
  - apply readSpec_Seek.
  - apply readSpec_Stream.
  - unfold readSpec; simpl; split_and!; done || lia.
  - by apply readSpec_Multi.
  - apply readSpec_Bufio; [done|]. apply IH, Hwf.
  - apply readSpec_Limited; [done|]. by apply IH.
Qed.

(** ** Setting the boundary *)

Lemma length_bytes_of (b : string) : length (bytes_of b) = String.length b.
Proof. induction b as [|c b IH]; simpl; [done|]. by rewrite IH. Qed.

Lemma decodeRune_ascii c rest :
  nat_of_ascii c < 128 → decodeRune (c :: rest) = (RuneAscii c, 1).
Proof. intros H. unfold decodeRune. by rewrite bool_decide_true. Qed.

Lemma decodeRune_high c rest b size :
  128 ≤ nat_of_ascii c → decodeRune (c :: rest) = (b, size) →
  ∀ e i, boundaryRuneOk e i b = false.
Proof.
  intros H Hd e i. unfold decodeRune in Hd.
  rewrite bool_decide_false in Hd by lia.
  repeat match type of Hd with
         | (if ?c then _ else _) = _ => destruct c
         | match ?l with [] => _ | _ :: _ => _ end = _ => destruct l
         end; by inversion Hd.
Qed.

Lemma boundaryChar_ascii c : boundaryChar c = true → nat_of_ascii c < 128.
Proof.
  unfold boundaryChar, byteIn. rewrite !orb_true_iff, !bool_decide_eq_true.
  intros [[[?|?]|?]|Hin]; [lia..|].
  apply list_elem_of_In in Hin. simpl in Hin.
  destruct_or!; subst; try done; apply Nat.ltb_lt; reflexivity.
Qed.

Lemma boundaryLoop_spec end_ (bs : bytes) : ∀ i : Z,
  boundaryLoop end_ i 0 bs = true ↔
  ∀ (j : nat) c, bs !! j = Some c →
                 boundaryChar c = true ∨ (c = " "%char ∧ (i + Z.of_nat j)%Z ≠ end_).
Proof.
  induction bs as [|c rest IH]; intros i.
  { split; [intros _ j c Hj|done]. by rewrite lookup_nil in Hj. }
  cbn [boundaryLoop]. destruct (decide (nat_of_ascii c < 128)) as [Hc|Hc].
  - rewrite decodeRune_ascii by done. cbn [boundaryRuneOk]. fold (boundaryChar c).
    destruct (boundaryChar c || bool_decide (c = " "%char) && bool_decide (i ≠ end_)) eqn:Hok.
    + simpl. rewrite IH. split.
      * intros Hrest [|j] c' Hj; simpl in Hj.
        -- inversion Hj; subst c'. apply orb_true_iff in Hok as [?|Hok]; [by left|right].
           apply andb_true_iff in Hok as [?%bool_decide_eq_true ?%bool_decide_eq_true].
           split; [done|lia].
        -- specialize (Hrest j c' Hj).
           by replace (i + Z.of_nat (S j))%Z with (i + 1 + Z.of_nat j)%Z by lia.
      * intros Hall j c' Hj. specialize (Hall (S j) c' Hj).
        by replace (i + 1 + Z.of_nat j)%Z with (i + Z.of_nat (S j))%Z by lia.
    + split; [done|]. intros Hall. specialize (Hall 0 c eq_refl).
      apply orb_false_iff in Hok as [Hb Hsp]. destruct Hall as [?|[-> Hne]]; [congruence|].
      rewrite bool_decide_true in Hsp by done. simpl in Hsp.
      apply bool_decide_eq_false in Hsp. exfalso. apply Hsp. lia.
  - destruct (decodeRune (c :: rest)) as [b size] eqn:Hd.
    rewrite (decodeRune_high c rest b size) by (done || lia).
    split; [done|]. intros Hall. specialize (Hall 0 c eq_refl).
    destruct Hall as [Hb%boundaryChar_ascii|[-> _]]; [lia|].
    exfalso. apply Hc. apply Nat.ltb_lt. reflexivity.
Qed.




(** C4, at a source between two parts: the first [Read] delivers the first
    heading and the content [foo], the second finds that content exhausted
    and releases the part; [SetBoundary] then succeeds, and the rest of the
    encoding is delimited by the new boundary. *)
Theorem SetBoundary_between_parts_succeeds :
  let r1 := Source_Read srcAAA twoParts 64 in
  let '(s1, h1) := afterRead r1 in
  let r2 := Source_Read s1 h1 64 in
  let '(s2, h2) := afterRead r2 in
  let '(s3, err) := Source_SetBoundary s2 "BBB" in
  readBytes r1 = Some ("--AAA" +:+ CRLF +:+ CRLF +:+ "foo", None) ∧
  (Source_SetBoundary s1 "BBB").2 = Some ErrSetBoundaryAfterRead ∧
  readBytes r2 = Some ("", None) ∧
  err = None ∧ Boundary s3 = "BBB" ∧
  readAll 64 10 s3 h2 =
    Some (Ok (bytes_of (CRLF +:+ "--BBB" +:+ CRLF +:+ CRLF +:+ "bar" +:+
                        CRLF +:+ "--BBB--" +:+ CRLF), EOF)).
Proof. vm_compute. repeat split. Qed.

(** ** The end of the stream *)

(** [Read] never reports the end of the stream together with bytes. *)
Lemma Read_EOF_no_bytes s h n bs s' h' :
  Source_Read s h n = Ok (bs, Some EOF, s', h') → bs = [].
Proof.
  unfold Source_Read, readBody, bufferRead. intros H.
  repeat (first
    [ congruence
    | progress simplify_eq/=
    | match type of H with
      | context [if ?c then _ else _] => destruct c eqn:?
      | context [match ?x with _ => _ end] => destruct x eqn:?
      end ]).
Qed.

(** C5, as stated, fails for a call with an empty buffer: after a first
    [Read] of four bytes the source is finalizing and holds the rest of the
    trailer, and [Read] with [len(p) = 0] then reports [EOF] with that rest
    still in the buffer. *)
Lemma Read_empty_buffer_reports_EOF_early :
  let '(s1, h1) := afterRead (Source_Read srcEmptyAAA [] 4) in
  finalizing s1 = true ∧ closed s1 = false ∧
  buffered s1 = bytes_of ("AAA--" +:+ CRLF) ∧
  readBytes (Source_Read s1 h1 0) = Some ("", Some EOF) ∧
  buffered (afterRead (Source_Read s1 h1 0)).1 = bytes_of ("AAA--" +:+ CRLF).
Proof. vm_compute. repeat split. Qed.

(** C5, amended: once the source is finalizing, a [Read] with a buffer that is
    not empty takes the next bytes of the trailer and reports no error as long
    as there are any, and reports [EOF], with no bytes, once the trailer is
    drained; and no [Read] at all reports [EOF] together with bytes. *)
Theorem Read_finalizing (s : Source) (h : Heap) (n : nat) :
  closed s = false → finalizing s = true → 0 < n →
  (∃ s', Source_Read s h n =
           Ok (take n (buffered s),
               (if decide (buffered s = []) then Some EOF else None), s', h)
         ∧ buffered s' = drop n (buffered s) ∧ finalizing s' = true)
  ∧ (buffered s ≠ [] → take n (buffered s) ≠ [])
  ∧ (∀ s0 h0 n0 bs s1 h1,
       Source_Read s0 h0 n0 = Ok (bs, Some EOF, s1, h1) → bs = []).
Proof.
  intros Hc Hf Hn. split_and!; [|by apply take_nonempty|apply Read_EOF_no_bytes].
  unfold Source_Read. rewrite Hc.
  set (s0 := match pull s with None => setPull s (Some (parts s)) | Some _ => s end).
  assert (finalizing s0 = true ∧ buffered s0 = buffered s) as [Hf0 Hb0].
  { subst s0. by destruct (pull s). }
  rewrite Hf0, andb_false_r. unfold readBody. rewrite Hb0.
  destruct (buffered s) as [|b buf] eqn:Hbuf.
  - rewrite decide_False by (simpl; lia). rewrite Hf0. simpl.
    exists s0. by rewrite take_nil, drop_nil.
  - rewrite decide_True by (simpl; lia). cbn [bufferRead]. cbn [finalizing setBuffered].
    rewrite Hf0. rewrite decide_True.
    + rewrite decide_False by done. eexists. split; [done|]. done.
    + rewrite length_take. simpl. lia.
Qed.

Lemma Read_finalizing_witness :
  let s := (afterRead (Source_Read srcEmptyAAA [] 4)).1 in
  ∃ s', Source_Read s [] 4 = Ok (take 4 (buffered s), None, s', [])
        ∧ buffered s' = drop 4 (buffered s) ∧ finalizing s' = true.
Proof.
  exact (proj1 (Read_finalizing (afterRead (Source_Read srcEmptyAAA [] 4)).1 [] 4
                  eq_refl eq_refl (Nat.lt_0_succ 3))).
Defined.

(** ** Closed sources *)

(** C9, as stated, fails for [SetBoundary]: on a closed source it returns no
    error and sets the boundary. *)
Lemma SetBoundary_after_Close_succeeds :
  let s := (Source_Close srcAAA).1 in
  closed s = true ∧
  Source_SetBoundary s "BBB" = (setBoundary s "BBB", None) ∧
  Boundary (Source_SetBoundary s "BBB").1 = "BBB".
Proof. vm_compute. repeat split. Qed.

Lemma perform_closed s h c :
  closed s = true →
  closed (perform s h c).1.2 = true ∧
  match c with
  | CallRead _ | CallWriteTo _ _ => (perform s h c).1.1 = Counted 0 (Some ErrClosed)
  | _ => True
  end.
Proof.
  intros Hc. destruct c as [n|fuel t|b| | |]; simpl.
  - unfold Source_Read. by rewrite Hc.
  - unfold Source_WriteTo. by rewrite Hc.
  - unfold Source_SetBoundary. split; [|done].
    destruct (lastPart s); [done|]. case_bool_decide; [done|].
    by destruct (boundaryLoop _ _ _ _).
  - done.
  - done.
  - done.
Qed.

(** C9, amended: after [Close], and until [Reset], every [Read] and every
    [WriteTo] delivers no bytes and fails with the closed-source error,
    whatever calls were made in between; [SetBoundary], [Boundary],
    [FormDataContentType] and [Close] are not refused. *)
Theorem closed_source_refuses_reads (s : Source) (h : Heap) (cs : list call) :
  Forall2 (λ c r, match c with
                  | CallRead _ | CallWriteTo _ _ => r = Counted 0 (Some ErrClosed)
                  | _ => True
                  end)
          cs (performAll (Source_Close s).1 h cs).
Proof.
  assert (closed (Source_Close s).1 = true) as Hc by done.
  generalize dependent (Source_Close s).1. clear s. intros s Hc.
  revert s h Hc. induction cs as [|c cs IH]; intros s h Hc; simpl; [constructor|].
  destruct (perform_closed s h c Hc) as [Hc' Hr].
  destruct (perform s h c) as [[r s'] h']. simpl in *.
  constructor; [|by apply IH]. by destruct c.
Qed.

(** ** Form and file names *)

(** C7, as stated, fails: a part whose Content-Type was set to [text/plain]
    has Content-Type [application/octet-stream] after [SetFileName]. *)
Lemma SetFileName_overwrites_ContentType :
  ContentType textPart = "text/plain" ∧
  contentTypeOf (SetFileName ∅ textPart "my-file.txt") = Some "application/octet-stream".
Proof. split; vm_compute; reflexivity. Qed.

(** C7, amended: on a part that has a header map and a map of disposition
    parameters, [SetFileName] sets the Content-Type header to
    [application/octet-stream] whatever it was before, and sets the
    Content-Disposition header to the serialisation of the parameters with
    the new file name. *)
Theorem SetFileName_sets_octet_stream
    (g : gmap string string) (p : Part) (fileName : string) :
  Header p ≠ None → dispositionParams p ≠ PNil →
  ∃ g' p',
    SetFileName g p fileName = Ok (g', p') ∧
    ContentType p' = "application/octet-stream" ∧
    headerValues (Header p') contentTypeHeader = ["application/octet-stream"] ∧
    headerValues (Header p') contentDispositionHeader =
      [FormatMediaType formDataDisposition
         (<["filename" := fileName]> (paramsMap g (dispositionParams p)))].
Proof.
  intros Hh Hp. unfold SetFileName.
  destruct (Header p) as [m|] eqn:Hm; [|done].
  destruct (dispositionParams p) as [|pm|] eqn:Hpm; [done| |]; simpl;
    do 2 eexists; (split; [reflexivity|]);
    unfold ContentType, headerGet, headerValues; simpl;
    rewrite lookup_insert_eq; simpl;
    rewrite lookup_insert_ne by done; rewrite lookup_insert_eq; done.
Qed.

Lemma SetFileName_sets_octet_stream_witness :
  ∃ g' p', SetFileName ∅ (setDisposition NewPart "" (POwn ∅)) "a.txt" = Ok (g', p') ∧
           ContentType p' = "application/octet-stream".
Proof.
  destruct (SetFileName_sets_octet_stream ∅ (setDisposition NewPart "" (POwn ∅)) "a.txt")
    as (g' & p' & H1 & H2 & _); [discriminate|discriminate|].
  exists g', p'. split; [exact H1|exact H2].
Defined.

Lemma sortedKeys_singleton {V} (k : string) (v : V) :
  sortedKeys ({[k := v]} : gmap string V) = [k].
Proof. unfold sortedKeys. rewrite map_to_list_singleton. reflexivity. Qed.

Lemma FormatMediaType_name (n : string) :
  ∃ tl, String.list_ascii_of_string (FormatMediaType formDataDisposition {["name" := n]})
        = bytes_of formDataDisposition ++ ";"%char :: tl.
Proof.
  unfold FormatMediaType. rewrite sortedKeys_singleton.
  replace (formatType formDataDisposition) with (Some (bytes_of formDataDisposition))
    by (vm_compute; reflexivity).
  cbn [formatParams]. rewrite lookup_singleton_eq. cbn [default].
  unfold formatParam.
  replace (isToken "name") with true by (vm_compute; reflexivity).
  cbn [negb]. rewrite String.list_ascii_of_string_of_list_ascii.
  eexists. reflexivity.
Qed.

Lemma FormatMediaType_name_ne (n : string) :
  FormatMediaType formDataDisposition {["name" := n]} ≠ formDataDisposition.
Proof.
  intros H. destruct (FormatMediaType_name n) as [tl Htl]. rewrite H in Htl.
  apply (f_equal length) in Htl. rewrite length_app in Htl.
  unfold formDataDisposition, bytes_of in Htl. cbn in Htl. lia.
Qed.

Section FormNameAfterSetFormName.
Variable ParseMediaType : string → string * option (gmap string string) * option error.

(** When [p.disposition] equals the header value and the parameters are
    not nil, [parseContentDisposition] leaves the part as it is. *)
Lemma parseContentDisposition_cached (p : Part) (v0 : string) (tl : list string) :
  headerValues (Header p) contentDispositionHeader = v0 :: tl →
  paramsNonNil (dispositionParams p) = true → disposition p = v0 →
  parseContentDisposition ParseMediaType p = p.
Proof.
  intros Hv Hp Hd. unfold parseContentDisposition. rewrite Hv, Hp.
  by rewrite (bool_decide_true _ Hd).
Qed.

(** C10, on the code: after [SetFormName n] on a new part, [FormName]
    returns the empty string for every [n].  [SetFormName] leaves the whole
    header value in [p.disposition]; [parseContentDisposition] finds it equal
    to the header and returns at once, and [FormName] then compares it with
    [form-data]. *)
Theorem FormName_after_SetFormName_is_empty (g : gmap string string) (n : string) :
  ∃ p, SetFormName g NewPart n = Ok (g, p) ∧
       headerValues (Header p) contentDispositionHeader =
         [FormatMediaType formDataDisposition {["name" := n]}] ∧
       (FormName ParseMediaType g p).1 = "".
Proof.
  pose proof (FormatMediaType_name_ne n) as Hne.
  unfold SetFormName. cbn [NewPart dispositionParams paramsSet Header headerSet].
  cbn [mbind exec_bind paramsMap]. rewrite insert_empty.
  generalize dependent (FormatMediaType formDataDisposition {["name" := n]}).
  intros d Hne. eexists. split; [reflexivity|].
  assert (headerValues
            (Header (setHeader (setDisposition NewPart d (POwn {["name" := n]}))
                       (Some (<[contentDispositionHeader:=[d]]> ∅))))
            contentDispositionHeader = [d]) as Hv.
  { unfold headerValues. cbn [setHeader Header]. by rewrite lookup_insert_eq. }
  split; [exact Hv|]. unfold FormName.
  rewrite (parseContentDisposition_cached _ d []) by (exact Hv || reflexivity).
  cbn [setHeader setDisposition disposition].
  by rewrite (bool_decide_true _ Hne).
Qed.
End FormNameAfterSetFormName.

(** ** Runs of reads *)

Lemma readsOut_stop c s h bs e s1 h1 :
  Source_Read s h c = Ok (bs, Some e, s1, h1) → readsOut c s h bs e.
Proof.
  intros H. exists 1. intros [|fuel] Hf; [lia|]. simpl. by rewrite H.
Qed.

Lemma readsOut_step c s h bs s1 h1 out e :
  Source_Read s h c = Ok (bs, None, s1, h1) →
  readsOut c s1 h1 out e → readsOut c s h (bs ++ out) e.
Proof.
  intros H [fuel0 Hrest]. exists (S fuel0). intros [|fuel] Hf; [lia|].
  simpl. rewrite H. rewrite Hrest by lia. done.
Qed.

Lemma readsOut_runs c s h out s1 h1 out' e :
  runsTo c s h out s1 h1 → readsOut c s1 h1 out' e → readsOut c s h (out ++ out') e.
Proof.
  induction 1 as [|s h bs s1 h1 out s2 h2 Hread _ IH]; intros Hrest; [done|].
  rewrite <- app_assoc. eapply readsOut_step; [done|]. by apply IH.
Qed.

Lemma readsOut_unique c s h out e out' e' :
  readsOut c s h out e → readsOut c s h out' e' → out = out' ∧ e = e'.
Proof.
  intros [f1 H1] [f2 H2].
  specialize (H1 (f1 `max` f2) ltac:(lia)). specialize (H2 (f1 `max` f2) ltac:(lia)).
  rewrite H1 in H2. by inversion H2.
Qed.

Lemma Source_Read_body s h c :
  closed s = false → (lastPart s ≠ None ∨ finalizing s = true) →
  Source_Read s h c = readBody (pulled s) h c.
Proof.
  intros Hc Hs. unfold Source_Read, pulled. rewrite Hc.
  assert (bool_decide (lastPart s = None) && negb (finalizing s) = false) as Hb.
  { destruct Hs as [Hs| ->]; [|by rewrite andb_false_r].
    by rewrite bool_decide_false. }
  by destruct (pull s); cbn [lastPart finalizing setPull]; rewrite Hb.
Qed.

(** A finalizing source hands out what is left of the trailer and then
    reports [EOF]. *)
Lemma Read_finalizing_step (s : Source) (h : Heap) (n : nat) :
  closed s = false → finalizing s = true → 0 < n →
  ∃ s', Source_Read s h n =
          Ok (take n (buffered s),
              (if decide (buffered s = []) then Some EOF else None), s', h)
        ∧ buffered s' = drop n (buffered s) ∧ finalizing s' = true ∧ closed s' = false.
Proof.
  intros Hc Hf Hn. rewrite Source_Read_body by auto.
  assert (finalizing (pulled s) = true ∧ buffered (pulled s) = buffered s
          ∧ closed (pulled s) = false) as (Hf0 & Hb0 & Hc0).
  { unfold pulled. by destruct (pull s). }
  unfold readBody. rewrite Hb0.
  destruct (buffered s) as [|b buf] eqn:Hbuf.
  - rewrite decide_False by (simpl; lia). rewrite Hf0. simpl.
    exists (pulled s). by rewrite take_nil, drop_nil.
  - rewrite decide_True by (simpl; lia). cbn [bufferRead]. cbn [finalizing setBuffered].
    rewrite Hf0. rewrite decide_True.
    + rewrite decide_False by done. eexists. split; [done|]. done.
    + rewrite length_take. simpl. lia.
Qed.

Lemma readsOut_finalizing c s h :
  0 < c → closed s = false → finalizing s = true →
  readsOut c s h (buffered s) EOF.
Proof.
  intros Hc. remember (length (buffered s)) as m eqn:Hm.
  revert s Hm. induction (lt_wf m) as [m _ IH]. intros s Hm Hcl Hf.
  destruct (Read_finalizing_step s h c Hcl Hf Hc) as (s' & Hread & Hb & Hf' & Hcl').
  destruct (buffered s) as [|b buf] eqn:Hbuf.
  - rewrite decide_True in Hread by done. rewrite take_nil in Hread.
    by eapply readsOut_stop.
  - rewrite decide_False in Hread by done.
    rewrite <- (take_drop c (b :: buf)). eapply readsOut_step; [done|].
    rewrite <- Hb. eapply (IH (length (buffered s'))); [|done|done|done].
    rewrite Hm, Hb, length_drop. simpl. lia.
Qed.

(** ** Streaming one part: proofs *)

Lemma setBuffered_same s : setBuffered s (buffered s) = s.
Proof. by destruct s. Qed.

Lemma readBody_streaming s h c ptr part r :
  finalizing s = false → lastPart s = Some ptr →
  h !! ptr = Some part → Content part = Some r →
  readBody s h c =
    let bs1 := take c (buffered s) in
    let s1 := setBuffered s (drop c (buffered s)) in
    let '(bs2, readErr, r') := Read r (c - length bs1) in
    let h' := <[ptr := setContent part (Some r')]> h in
    match readErr with
    | Some e =>
        if isEOF e then Ok (bs1 ++ bs2, None, setLastPart s1 None, h')
        else Ok (bs1 ++ bs2, Some e, s1, h')
    | None => Ok (bs1 ++ bs2, None, s1, h')
    end.
Proof.
  intros Hf Hl Hp Hc. unfold readBody.
  destruct (buffered s) as [|b buf] eqn:Hb.
  - rewrite decide_False by (simpl; lia). rewrite Hf, Hl, Hp, Hc.
    rewrite take_nil, drop_nil. rewrite <- Hb, setBuffered_same. done.
  - rewrite decide_True by (simpl; lia). cbn [bufferRead].
    cbn [finalizing lastPart setBuffered]. rewrite Hf, Hl, Hp, Hc. done.
Qed.

Lemma sameConfig_trans s1 s2 s3 : sameConfig s1 s2 → sameConfig s2 s3 → sameConfig s1 s3.
Proof. unfold sameConfig. intuition congruence. Qed.

Lemma contentMoved_trans ptr h1 h2 h3 :
  contentMoved ptr h1 h2 → contentMoved ptr h2 h3 → contentMoved ptr h1 h3.
Proof.
  intros (Hl1 & Ho1 & Hh1 & _) (Hl2 & Ho2 & Hh2 & Hg2).
  split_and!; [congruence| |congruence|done].
  intros q Hq. rewrite Ho2, Ho1; done.
Qed.

Lemma contentMoved_insert ptr h part r r' :
  Forall goodPart h → h !! ptr = Some part → Content part = Some r →
  wfReader r' → isEOF (stream r').2 = true →
  let h' := <[ptr := setContent part (Some r')]> h in
  contentMoved ptr h h' ∧ contentBytes h' ptr = (stream r').1.
Proof.
  intros Hgood Hp Hc Hwf He h'.
  assert (ptr < length h) as Hlt by (by eapply lookup_lt_Some).
  assert (h' !! ptr = Some (setContent part (Some r'))) as Hp'.
  { subst h'. by rewrite list_lookup_insert_eq. }
  split; [split_and!|].
  - subst h'. by rewrite length_insert.
  - intros q Hq. subst h'. by rewrite list_lookup_insert_ne.
  - unfold headerAt. by rewrite Hp', Hp.
  - subst h'. apply Forall_insert; [done|]. by unfold goodPart.
  - unfold contentBytes. by rewrite Hp'.
Qed.

Lemma pulled_id s : pull s ≠ None → pulled s = s.
Proof. unfold pulled. by destruct (pull s). Qed.

(** From a source that is streaming the part at [ptr], the reads deliver the
    buffer and then the content, and leave the source between parts.  When
    the content is empty, the part is released as soon as a read finds it so,
    whatever is left in the buffer. *)
Lemma streams_part c :
  0 < c → ∀ m s h ptr,
  length (buffered s) + length (contentBytes h ptr) = m →
  closed s = false → finalizing s = false → lastPart s = Some ptr → pull s ≠ None →
  Forall goodPart h → ptr < length h →
  ∃ bs s1 h1 out s' h',
    readBody s h c = Ok (bs, None, s1, h1) ∧ runsTo c s1 h1 out s' h' ∧
    lastPart s' = None ∧ sameConfig s s' ∧
    contentMoved ptr h h' ∧ contentBytes h' ptr = [] ∧
    (contentBytes h ptr ≠ [] → bs ++ out = buffered s ++ contentBytes h ptr) ∧
    (contentBytes h ptr = [] → ∃ k, 0 < k ∧ bs ++ out = take k (buffered s)).
Proof.
  intros Hc m. induction (lt_wf m) as [m _ IH].
  intros s h ptr Hm Hcl Hfin Hlast Hpull Hgood Hlt.
  destruct (lookup_lt_is_Some_2 h ptr Hlt) as [part Hp].
  pose proof (proj1 (Forall_lookup _ _) Hgood ptr part Hp) as Hgp.
  unfold goodPart in Hgp. destruct (Content part) as [r|] eqn:Hcont; [|done].
  destruct Hgp as [Hwf Heof].
  assert (contentBytes h ptr = (stream r).1) as HS.
  { unfold contentBytes. by rewrite Hp, Hcont. }
  rewrite (readBody_streaming s h c ptr part r) by done. cbv zeta.
  set (B := buffered s) in *. set (bs1 := take c B).
  pose proof (Read_spec r Hwf (c - length bs1)) as Hspec. unfold readSpec in Hspec.
  destruct (Read r (c - length bs1)) as [[bs2 e] r'].
  destruct Hspec as (Hlen2 & Hwf' & He).
  set (s1 := setBuffered s (drop c B)).
  destruct e as [err|].
  - (* the content is found exhausted *)
    destruct He as (-> & Hs & Hs'). rewrite Hs in Heof, HS. simpl in Heof, HS.
    rewrite Heof.
    destruct (contentMoved_insert ptr h part r r' Hgood Hp Hcont Hwf') as [Hmv Hcb].
    { by rewrite Hs'. }
    eexists _, _, _, [], _, _. split; [reflexivity|].
    split; [constructor|]. split; [done|]. split; [done|]. split; [exact Hmv|].
    split; [by rewrite Hcb, Hs'|]. rewrite HS. split; [done|].
    intros _. exists c. split; [done|]. by rewrite !app_nil_r.
  - destruct He as [Hs Hprog].
    assert (isEOF (stream r').2 = true) as Heof' by (by rewrite Hs in Heof).
    destruct (contentMoved_insert ptr h part r r' Hgood Hp Hcont Hwf' Heof') as [Hmv Hcb].
    set (h1 := <[ptr := setContent part (Some r')]> h) in *.
    destruct Hmv as (Hlen1 & Hoth1 & Hhdr1 & Hgood1).
    assert (length (buffered s1) + length (contentBytes h1 ptr) < m) as Hlt'.
    { subst s1. cbn [buffered setBuffered]. rewrite Hcb, length_drop.
      rewrite <- Hm, HS, Hs. cbn [fst]. rewrite length_app. fold B.
      destruct (decide (length B = 0)) as [HB0|HBpos]; [|lia].
      assert (bs2 ≠ []) as Hne.
      { apply Hprog. subst bs1. rewrite length_take. lia. }
      destruct bs2; [done|]. simpl. lia. }
    destruct (IH _ Hlt' s1 h1 ptr eq_refl) as
      (bs' & s2 & h2 & out' & s' & h' & Hbody & Hruns & Hl' & Hcfg & Hmv' & Hcb' & Hfull & Hcut);
      [done|done|done|done|done|lia|].
    eexists _, _, _, (bs' ++ out'), s', h'. split; [reflexivity|].
    split.
    { eapply runs_step; [|exact Hruns].
      rewrite Source_Read_body; [|done|left; cbn; by rewrite Hlast].
      by rewrite pulled_id. }
    split; [done|]. split; [exact Hcfg|].
    split; [by eapply contentMoved_trans; [split_and!|]|].
    split; [done|].
    assert (bs2 ≠ [] → bs1 = B ∧ drop c B = []) as Hfullbuf.
    { intros Hne. assert (length bs1 < c) as Hl.
      { destruct bs2; [done|]. simpl in Hlen2. lia. }
      subst bs1. rewrite length_take in Hl.
      by rewrite take_ge, drop_ge by lia. }
    rewrite Hcb in Hfull, Hcut. cbn [buffered setBuffered s1] in Hfull, Hcut.
    rewrite HS, Hs. cbn [fst]. split.
    + intros HSne. destruct (decide ((stream r').1 = [])) as [HS'|HS'].
      * destruct (Hcut HS') as (k & Hk & Hout). rewrite HS' in *.
        rewrite app_nil_r in HSne. destruct (Hfullbuf HSne) as [HB1 HB2].
        rewrite HB2, take_nil in Hout. rewrite Hout, HB1. by rewrite !app_nil_r.
      * rewrite (Hfull HS'). destruct (decide (bs2 = [])) as [->|Hne].
        -- simpl. rewrite app_nil_r. subst bs1. by rewrite app_assoc, take_drop.
        -- destruct (Hfullbuf Hne) as [HB1 HB2]. rewrite HB1, HB2. simpl.
           by rewrite <- !app_assoc.
    + intros HSnil. apply app_eq_nil in HSnil as [-> HS'].
      destruct (Hcut HS') as (k & Hk & Hout). exists (c + k). split; [lia|].
      rewrite Hout, app_nil_r. subst bs1. apply take_take_drop.
Qed.

(** ** Reading a whole sequence: proofs *)

Lemma encodeParts_ext b first h h' ptrs :
  Forall (λ q, h' !! q = h !! q) ptrs →
  encodeParts b first h' ptrs = encodeParts b first h ptrs.
Proof.
  revert first. induction ptrs as [|q rest IH]; intros first Hall; [done|].
  apply Forall_cons in Hall as [Hq Hrest]. simpl.
  unfold headerAt, contentBytes. rewrite Hq. by rewrite IH.
Qed.

Lemma pull_pulled s : pull (pulled s) = Some (pending s).
Proof. unfold pulled, pending. by destruct (pull s) eqn:Hp. Qed.

Lemma Read_finalize s h c :
  0 < c → closed s = false → finalizing s = false → lastPart s = None →
  pending s = [] →
  ∃ s', Source_Read s h c = Ok (take c (ending (boundary s)), None, s', h)
        ∧ buffered s' = drop c (ending (boundary s))
        ∧ finalizing s' = true ∧ closed s' = false.
Proof.
  intros Hc Hcl Hfin Hlast Hpend. unfold Source_Read. rewrite Hcl. fold (pulled s).
  assert (lastPart (pulled s) = None ∧ finalizing (pulled s) = false
          ∧ closed (pulled s) = false ∧ boundary (pulled s) = boundary s)
    as (Hl & Hf & Hc' & Hb).
  { unfold pulled. by destruct (pull s). }
  rewrite Hl, Hf, pull_pulled, Hpend. rewrite bool_decide_true by done.
  cbn [andb negb populateEnding setFinalizing buffered boundary]. rewrite Hb.
  unfold ending at 1. cbn [bufferRead app bytes_of CRLF String.list_ascii_of_string].
  eexists. split; [reflexivity|]. done.
Qed.

Lemma Read_pull s h c ptr rest pt :
  closed s = false → finalizing s = false → lastPart s = None →
  pending s = (Some ptr, None) :: rest → h !! ptr = Some pt →
  Source_Read s h c =
    readBody (populatePartHeading (setLastPart (setPull (pulled s) (Some rest)) (Some ptr)) pt)
             h c.
Proof.
  intros Hcl Hfin Hlast Hpend Hp. unfold Source_Read. rewrite Hcl. fold (pulled s).
  assert (lastPart (pulled s) = None ∧ finalizing (pulled s) = false) as (Hl & Hf).
  { unfold pulled. by destruct (pull s). }
  rewrite Hl, Hf, pull_pulled, Hpend. rewrite bool_decide_true by done.
  cbn [andb negb]. by rewrite Hp.
Qed.

Lemma partHeading_first b hdr : ∃ tl, partHeading true b hdr = "-"%char :: tl.
Proof. unfold partHeading. simpl. eauto. Qed.

Lemma take_cons_head {A} (x : A) l k : 0 < k → ∃ tl, take k (x :: l) = x :: tl.
Proof. destruct k; [lia|]. simpl. eauto. Qed.

(** Reading a source that is between parts, to the end: the output ends with
    the trailer; it starts with a dash when a first part is still to come;
    and it is the encoding of the parts when no part comes twice and no
    content is empty. *)
Lemma reads_sequence c :
  0 < c → ∀ ptrs s h,
  pending s = PartSeq (map Some ptrs) →
  closed s = false → finalizing s = false → lastPart s = None →
  Forall goodPart h → Forall (λ p, p < length h) ptrs →
  ∃ out, readsOut c s h out EOF ∧
         ending (boundary s) `suffix_of` out ∧
         (ptrs ≠ [] → firstHeadingWritten s = false → ∃ tl, out = "-"%char :: tl) ∧
         (NoDup ptrs → Forall (λ p, contentBytes h p ≠ []) ptrs →
          out = encodeParts (boundary s) (negb (firstHeadingWritten s)) h ptrs).
Proof.
  intros Hc ptrs. induction ptrs as [|ptr rest IH];
    intros s h Hpend Hcl Hfin Hlast Hgood Hbound.
  - destruct (Read_finalize s h c Hc Hcl Hfin Hlast Hpend) as (s' & Hread & Hb & Hf' & Hc').
    exists (ending (boundary s)). split_and!; [|done|done|done].
    rewrite <- (take_drop c (ending (boundary s))).
    eapply readsOut_step; [exact Hread|]. rewrite <- Hb.
    by apply readsOut_finalizing.
  - apply Forall_cons in Hbound as [Hlt Hbound].
    destruct (lookup_lt_is_Some_2 h ptr Hlt) as [pt Hp].
    simpl in Hpend.
    set (sA := populatePartHeading
                 (setLastPart (setPull (pulled s) (Some (PartSeq (map Some rest)))) (Some ptr))
                 pt).
    assert (closed (pulled s) = false ∧ finalizing (pulled s) = false ∧
            boundary (pulled s) = boundary s ∧
            firstHeadingWritten (pulled s) = firstHeadingWritten s)
      as (Hc0 & Hf0 & Hb0 & Hw0).
    { unfold pulled. by destruct (pull s). }
    destruct (streams_part c Hc _ sA h ptr eq_refl) as
      (bs & s1 & h1 & out1 & s2 & h2 & Hbody & Hruns & Hl2 & Hcfg & Hmv & Hcb & Hfull & Hcut);
      [done|done|done|done|done|done|].
    destruct Hcfg as (Hb2 & _ & Hp2 & Hw2 & Hc2 & Hf2).
    destruct Hmv as (Hlen2 & Hoth2 & Hhdr2 & Hgood2).
    cbn [sA populatePartHeading setLastPart setPull boundary pull firstHeadingWritten
         closed finalizing] in Hb2, Hp2, Hw2, Hc2, Hf2.
    destruct (IH s2 h2) as (out2 & Hout2 & Hsuf2 & _ & Hexact2).
    { unfold pending. by rewrite Hp2. }
    { congruence. }
    { congruence. }
    { done. }
    { done. }
    { by rewrite Hlen2. }
    exists ((bs ++ out1) ++ out2). split_and!.
    + rewrite <- app_assoc.
      eapply readsOut_step; [|by eapply readsOut_runs].
      rewrite (Read_pull s h c ptr (PartSeq (map Some rest)) pt) by done. exact Hbody.
    + rewrite Hb2, Hb0 in Hsuf2. by apply suffix_app_r.
    + intros _ Hw. assert (∃ tl, buffered sA = "-"%char :: tl) as [tl HB].
      { cbn [sA populatePartHeading buffered firstHeadingWritten setLastPart setPull].
        rewrite Hw0, Hw. apply partHeading_first. }
      destruct (decide (contentBytes h ptr = [])) as [HS|HS].
      * destruct (Hcut HS) as (k & Hk & ->). rewrite HB.
        destruct (take_cons_head "-"%char tl k Hk) as [tl' ->]. simpl. eauto.
      * rewrite (Hfull HS), HB. simpl. eauto.
    + intros Hnd Hne. apply NoDup_cons in Hnd as [Hnotin Hnd].
      apply Forall_cons in Hne as [Hne0 Hne].
      assert (Forall (λ q, h2 !! q = h !! q) rest) as Hsame.
      { apply Forall_forall. intros q Hq. apply Hoth2. intros ->. done. }
      rewrite (Hfull Hne0). rewrite Hexact2.
      * rewrite Hb2, Hw2, Hb0. simpl.
        rewrite (encodeParts_ext _ _ h h2) by done.
        cbn [sA populatePartHeading buffered firstHeadingWritten setLastPart setPull boundary].
        rewrite Hw0, Hb0. unfold headerAt at 1. rewrite Hp. by rewrite <- !app_assoc.
      * done.
      * apply Forall_forall. intros q Hq.
        pose proof (proj1 (Forall_forall _ _) Hne q Hq) as Hq1.
        pose proof (proj1 (Forall_forall _ _) Hsame q Hq) as Hq2.
        simpl in Hq1, Hq2. unfold contentBytes in *. by rewrite Hq2.
Qed.

(** ** Bulk copy: proofs *)

Lemma sinkWrite_nil t : sinkWrite t [] = t.
Proof. destruct t. unfold sinkWrite. simpl. by rewrite app_nil_r. Qed.

Lemma sinkWrite_app t a b : sinkWrite (sinkWrite t a) b = sinkWrite t (a ++ b).
Proof. unfold sinkWrite. simpl. by rewrite app_assoc. Qed.

(** The copy loop moves the whole stream of a reader into the sink. *)
Lemma copyLoop_spec chunk :
  0 < chunk → ∀ m r t, length (stream r).1 = m → wfReader r →
  ∃ fuel0 r', wfReader r' ∧ stream r' = ([], (stream r).2) ∧
    ∀ fuel, fuel0 ≤ fuel →
      copyLoop fuel chunk r t =
        Some (m, (if decide ((stream r).2 = EOF) then None else Some (stream r).2),
              r', sinkWrite t (stream r).1).
Proof.
  intros Hc m. induction (lt_wf m) as [m _ IH]. intros r t Hm Hwf.
  pose proof (Read_spec r Hwf chunk) as Hspec. unfold readSpec in Hspec.
  destruct (Read r chunk) as [[bs e] r1] eqn:Hread.
  destruct Hspec as (Hlen & Hwf1 & He). destruct e as [err|].
  - destruct He as (-> & Hs & Hs1). exists 1, r1. rewrite Hs in *. simpl in *.
    split_and!; [done|done|]. intros [|fuel] Hf; [lia|]. simpl. rewrite Hread.
    rewrite sinkWrite_nil. by subst m.
  - destruct He as [Hs Hprog]. specialize (Hprog Hc).
    assert (length (stream r1).1 < m) as Hlt.
    { rewrite <- Hm, Hs. simpl. rewrite length_app. destruct bs; [done|]. simpl. lia. }
    destruct (IH _ Hlt r1 (sinkWrite t bs) eq_refl Hwf1) as (fuel0 & r' & Hwf' & Hs' & Hloop).
    exists (S fuel0), r'. rewrite Hs. simpl. split_and!; [done|done|].
    intros [|fuel] Hf; [lia|]. simpl. rewrite Hread. rewrite Hloop by lia. simpl.
    rewrite sinkWrite_app. do 4 f_equal. rewrite <- Hm, Hs. simpl. by rewrite length_app.
Qed.

Lemma Read_hasWriterTo r n : hasWriterTo (Read r n).2 = hasWriterTo r.
Proof.
  destruct r as [k data pos|chunk rest fail|e|rs|size buf err rd|rd N]; cbn [Read].
  - by case_decide.
  - by destruct rest.
  - done.
  - by destruct ((fix go (rs0 : list Reader) := _) rs) as [[??]?].
  - destruct n, buf, err; try done; case_decide;
      repeat (match goal with |- context [let '(_, _) := ?x in _] => destruct x as [[??]?] end);
      try done; by destruct l.
  - case_decide; [done|]. by destruct (Read rd _) as [[??]?].
Qed.

Lemma copyLoop_hasWriterTo chunk fuel : ∀ r t n e r' t',
  copyLoop fuel chunk r t = Some (n, e, r', t') → hasWriterTo r' = hasWriterTo r.
Proof.
  induction fuel as [|fuel IH]; intros r t n e r' t' H; [done|].
  simpl in H. pose proof (Read_hasWriterTo r chunk) as Hk.
  destruct (Read r chunk) as [[bs er] r1]. simpl in Hk. destruct er as [err|].
  - inversion H; subst. done.
  - destruct (copyLoop fuel chunk r1 (sinkWrite t bs)) as [[[[n1 e1] r2] t2]|] eqn:Hl;
      [|done]. simpl in H. inversion H; subst. rewrite <- Hk. by eapply IH.
Qed.

Lemma defaultChunk_pos : 0 < defaultChunk.
Proof. unfold defaultChunk. lia. Qed.

Lemma writePartContent_copyable s r t :
  wfReader r → (stream r).2 = EOF → (hasWriterTo r = true ∨ isReaderFrom t = true) →
  ∃ fuel0 r', wfReader r' ∧ stream r' = ([], EOF) ∧ hasWriterTo r' = hasWriterTo r ∧
    ∀ fuel, fuel0 ≤ fuel →
      writePartContent fuel s (Some r) t =
        Some (Ok (length (stream r).1, None, s, Some r', sinkWrite t (stream r).1)).
Proof.
  intros Hwf Heof Hdisp.
  destruct (copyLoop_spec defaultChunk defaultChunk_pos _ r t eq_refl Hwf)
    as (fuel0 & r' & Hwf' & Hs' & Hloop).
  rewrite Heof in Hs', Hloop. rewrite decide_True in Hloop by done.
  exists fuel0, r'. split_and!; [done|done| |].
  { by eapply (copyLoop_hasWriterTo _ fuel0), Hloop. }
  intros fuel Hf. unfold writePartContent.
  destruct (hasWriterTo r) eqn:Hk.
  - by rewrite Hloop.
  - destruct Hdisp as [?| ->]; [done|]. by rewrite Hloop.
Qed.

(** [WriteTo] writes, for each part, its heading and its content, and then
    the trailer. *)
Lemma writes_sequence : ∀ ptrs n s h t,
  Forall (copyable (isReaderFrom t)) h → Forall (λ p, p < length h) ptrs →
  ∃ fuel0 out,
    (∀ fuel, fuel0 ≤ fuel →
       ∃ s' h', writeParts fuel (PartSeq (map Some ptrs)) n s h t =
                  Some (Ok (n + length out, None, s', h', sinkWrite t out))) ∧
    ending (boundary s) `suffix_of` out ∧
    (ptrs ≠ [] → firstHeadingWritten s = false → ∃ tl, out = "-"%char :: tl) ∧
    (NoDup ptrs → out = encodeParts (boundary s) (negb (firstHeadingWritten s)) h ptrs).
Proof.
  induction ptrs as [|ptr rest IH]; intros n s h t Hgood Hbound.
  - exists 0, (ending (boundary s)). split_and!; [|done|done|done].
    intros fuel _. simpl. eauto.
  - apply Forall_cons in Hbound as [Hlt Hbound].
    destruct (lookup_lt_is_Some_2 h ptr Hlt) as [part Hp].
    pose proof (proj1 (Forall_lookup _ _) Hgood ptr part Hp) as Hcp.
    unfold copyable in Hcp. destruct (Content part) as [r|] eqn:Hcont; [|done].
    destruct Hcp as (Hwf & Heof & Hdisp).
    set (H := partHeading (negb (firstHeadingWritten s)) (boundary s) (Header part)).
    set (s2 := setBuffered (populatePartHeading s part) []).
    destruct (writePartContent_copyable s2 r (sinkWrite t H) Hwf Heof Hdisp)
      as (fuel1 & r' & Hwf' & Hs' & Hk' & Hcopy).
    set (h' := <[ptr := setContent part (Some r')]> h).
    assert (Forall (copyable (isReaderFrom t)) h') as Hgood'.
    { apply Forall_insert; [done|]. unfold copyable. simpl. rewrite Hs', Hk'. done. }
    assert (length h' = length h) as Hlen' by apply length_insert.
    destruct (IH (n + length H + length (stream r).1) s2 h'
                 (sinkWrite (sinkWrite t H) (stream r).1))
      as (fuel2 & out2 & Hrun & Hsuf & _ & Hexact); [done|by rewrite Hlen'|].
    exists (fuel1 `max` fuel2), (H ++ (stream r).1 ++ out2). split_and!.
    + intros fuel Hf. destruct (Hrun fuel ltac:(lia)) as (s' & h'' & Hw).
      exists s', h''. cbn [PartSeq map writeParts]. rewrite Hp.
      cbn [populatePartHeading buffered]. fold H. fold s2. rewrite Hcont.
      rewrite Hcopy by lia. cbn [mbind option_bind]. fold h'.
      fold (PartSeq (map Some rest)). rewrite Hw. rewrite !sinkWrite_app.
      do 3 f_equal. rewrite !length_app. do 3 f_equal. lia.
    + apply suffix_app_r, suffix_app_r. exact Hsuf.
    + intros _ Hw. subst H. rewrite Hw. cbn [negb].
      destruct (partHeading_first (boundary s) (Header part)) as [tl ->]. simpl. eauto.
    + intros [Hnotin Hnd]%NoDup_cons. rewrite (Hexact Hnd). simpl.
      rewrite (encodeParts_ext _ _ h h').
      * unfold headerAt, contentBytes. rewrite Hp, Hcont. done.
      * apply Forall_forall. intros q Hq. subst h'.
        apply list_lookup_insert_ne. by intros ->.
Qed.

(** ** The encoded output: proofs *)

Lemma fresh_SetBoundary ps rnd b :
  fresh (Source_SetBoundary (NewSource ps rnd) b).1 ∧
  parts (Source_SetBoundary (NewSource ps rnd) b).1 = ps.
Proof.
  unfold Source_SetBoundary. cbn [NewSource lastPart].
  case_bool_decide; [done|]. by destruct (boundaryLoop _ _ _ _).
Qed.

Lemma copyable_goodPart rf p : copyable rf p → goodPart p.
Proof.
  unfold copyable, goodPart. destruct (Content p); [|done].
  intros (? & -> & _). done.
Qed.

(** C1: the source with boundary [MIMEBOUNDARY] over the one part with
    headers A:2, B:5,7,6, C:4, M:3, Z:1 and content [foo] gives exactly the
    bytes of scenario 2, when read with buffers of any size [c > 0] and
    when written to a sink with [WriteTo]. *)
Theorem sorted_header_output (rnd : bytes) (c : nat) :
  0 < c →
  readsOut c (sortedHeaderSource rnd) [part1] sortedHeaderOutput EOF ∧
  ∃ fuel0, ∀ fuel, fuel0 ≤ fuel →
    ∃ s' h', Source_WriteTo fuel (sortedHeaderSource rnd) [part1] (mkSink [] true) =
               Some (Ok (length sortedHeaderOutput, None, s', h',
                         mkSink sortedHeaderOutput true)).
Proof.
  intros Hc.
  destruct (fresh_SetBoundary (PartSeq [Some 0]) rnd "MIMEBOUNDARY")
    as [(Hp & _ & Hw & Hl & Hf & Hcl) Hparts].
  fold (sortedHeaderSource rnd) in *.
  assert (boundary (sortedHeaderSource rnd) = "MIMEBOUNDARY") as Hb by reflexivity.
  assert (encodeParts "MIMEBOUNDARY" true [part1] [0] = sortedHeaderOutput) as Henc
    by (vm_compute; reflexivity).
  split.
  - destruct (reads_sequence c Hc [0] (sortedHeaderSource rnd) [part1])
      as (out & Hout & _ & _ & Hexact).
    + unfold pending. by rewrite Hp, Hparts.
    + done.
    + done.
    + done.
    + apply Forall_singleton. unfold goodPart. vm_compute. done.
    + apply Forall_singleton. simpl. lia.
    + rewrite Hexact in Hout.
      * rewrite Hw, Hb in Hout. cbn [negb] in Hout. by rewrite Henc in Hout.
      * apply NoDup_singleton.
      * apply Forall_singleton. vm_compute. discriminate.
  - destruct (writes_sequence [0] 0 (sortedHeaderSource rnd) [part1] (mkSink [] true))
      as (fuel0 & out & Hrun & _ & _ & Hexact).
    + apply Forall_singleton. unfold copyable. vm_compute. auto.
    + apply Forall_singleton. simpl. lia.
    + rewrite Hexact in Hrun by apply NoDup_singleton.
      rewrite Hw, Hb in Hrun. cbn [negb] in Hrun. rewrite Henc in Hrun.
      exists fuel0. intros fuel Hfuel.
      destruct (Hrun fuel Hfuel) as (s' & h' & Hwr). exists s', h'.
      unfold Source_WriteTo. rewrite Hcl, Hparts. exact Hwr.
Qed.

Lemma sorted_header_output_witness :
  readsOut 7 (sortedHeaderSource []) [part1] sortedHeaderOutput EOF.
Proof. exact (proj1 (sorted_header_output [] 7 (Nat.lt_0_succ 6))). Defined.

(** C2, at a part with an empty content and a buffer of four bytes: the
    first [Read] fills the buffer with the first four bytes of the heading,
    reads the content into the empty rest of the buffer, is told [EOF] and
    releases the part; the second [Read] pulls, finds the sequence over and
    replaces what was left of the heading by the trailer.  [WriteTo] writes
    the whole heading. *)
Theorem chunked_read_loses_heading :
  readBy (readAll 4 10 srcOneAAA emptyContentHeap) =
    Some ("--AA" +:+ CRLF +:+ "--AAA--" +:+ CRLF) ∧
  writtenBy (Source_WriteTo 10 srcOneAAA emptyContentHeap (mkSink [] true)) =
    Some ("--AAA" +:+ CRLF +:+ CRLF +:+ CRLF +:+ "--AAA--" +:+ CRLF) ∧
  readBy (readAll 4 10 srcOneAAA emptyContentHeap) ≠
    writtenBy (Source_WriteTo 10 srcOneAAA emptyContentHeap (mkSink [] true)).
Proof. split_and!; vm_compute; (reflexivity || discriminate). Qed.

(** C6, as stated, fails for the empty sequence: the output is the trailer
    alone, and begins with a carriage return. *)
Lemma empty_sequence_output_begins_with_CR :
  readAll 64 10 srcEmptyAAA [] =
    Some (Ok (CR :: LF :: bytes_of ("--AAA--" +:+ CRLF), EOF)) ∧
  written <$> (λ x, match x with Some (Ok (_, None, _, _, t)) => Some t | _ => None end)
                (Source_WriteTo 10 srcEmptyAAA [] (mkSink [] true)) =
    Some (CR :: LF :: bytes_of ("--AAA--" +:+ CRLF)).
Proof. split; vm_compute; reflexivity. Qed.

(** C6, amended: for every sequence of parts (the empty one too) and every
    boundary, the complete output, whether read with buffers of any size
    [c > 0] or written by [WriteTo], ends with the trailer; and for every
    sequence that is not empty it begins with a dash, so with neither a
    carriage return nor a line feed. *)
Theorem encoded_output_shape (c : nat) (ptrs : list nat) (s : Source) (h : Heap) (t : Sink) :
  0 < c → fresh s → parts s = PartSeq (map Some ptrs) →
  Forall (λ p, p < length h) ptrs → Forall goodPart h →
  (∃ out, readsOut c s h out EOF ∧
          ending (boundary s) `suffix_of` out ∧
          (ptrs ≠ [] → ∃ tl, out = "-"%char :: tl)) ∧
  (Forall (copyable (isReaderFrom t)) h →
   ∃ fuel0 out,
     (∀ fuel, fuel0 ≤ fuel →
        ∃ n s' h', Source_WriteTo fuel s h t = Some (Ok (n, None, s', h', sinkWrite t out))) ∧
     ending (boundary s) `suffix_of` out ∧
     (ptrs ≠ [] → ∃ tl, out = "-"%char :: tl)).
Proof.
  intros Hc (Hp & _ & Hw & Hl & Hf & Hcl) Hparts Hbound Hgood. split.
  - destruct (reads_sequence c Hc ptrs s h) as (out & Hout & Hsuf & Hhead & _);
      [unfold pending; by rewrite Hp|done|done|done|done|done|].
    exists out. split_and!; [done|done|]. intros Hne. by apply Hhead.
  - intros Hcopy. destruct (writes_sequence ptrs 0 s h t Hcopy Hbound)
      as (fuel0 & out & Hrun & Hsuf & Hhead & _).
    exists fuel0, out. split_and!; [|done|intros Hne; by apply Hhead].
    intros fuel Hfuel. destruct (Hrun fuel Hfuel) as (s' & h' & Hwr).
    exists (0 + length out), s', h'. unfold Source_WriteTo. by rewrite Hcl, Hparts.
Qed.

Lemma encoded_output_shape_witness :
  ∃ out, readsOut 3 srcAAA twoParts out EOF ∧
         ending (boundary srcAAA) `suffix_of` out ∧
         ([0; 1] ≠ [] → ∃ tl, out = "-"%char :: tl).
Proof.
  refine (proj1 (encoded_output_shape 3 [0; 1] srcAAA twoParts (mkSink [] true)
                   (Nat.lt_0_succ 2) _ eq_refl _ _)).
  - repeat split.
  - repeat constructor.
  - repeat constructor.
Defined.

(** ** Content-type sniffing keeps the content *)

Lemma fillLoop_spec i size buf rd :
  0 < i → length buf < size → wfReader rd →
  let '(buf', err', rd') := fillLoop i size buf rd in
  wfReader (RBufio size buf' err' rd') ∧
  stream (RBufio size buf' err' rd') = stream (RBufio size buf None rd).
Proof.
  intros Hi Hlen Hwf. destruct i as [|i]; [lia|]. cbn [fillLoop].
  pose proof (Read_spec rd Hwf (size - length buf)) as Hspec. unfold readSpec in Hspec.
  destruct (Read rd (size - length buf)) as [[bs e] rd1].
  destruct Hspec as (Hl & Hwf1 & He). destruct e as [err|].
  - destruct He as (-> & Hs & Hs1). cbn [wfReader stream]. rewrite Hs, app_nil_r.
    split_and!; [lia|done|done|]. cbn. by rewrite app_nil_r.
  - destruct He as [Hs Hprog]. specialize (Hprog ltac:(lia)).
    rewrite decide_True by (destruct bs; [done|simpl; lia]).
    cbn [wfReader stream]. rewrite Hs. cbn [fst snd].
    split_and!; [lia|done|done|]. by rewrite app_assoc.
Qed.




Lemma Read_seekView r n : seekView (Read r n).2 = seekView r.
Proof.
  destruct r as [k data pos|chunk rest fail|e|rs|size buf err rd|rd N]; cbn [Read].
  - by case_decide.
  - by destruct rest.
  - done.
  - by destruct ((fix go (rs0 : list Reader) := _) rs) as [[??]?].
  - destruct n, buf, err; try done; case_decide;
      repeat (match goal with |- context [let '(_, _) := ?x in _] => destruct x as [[??]?] end);
      try done; by destruct l.
  - case_decide; [done|]. by destruct (Read rd _) as [[??]?].
Qed.

Lemma readFullLoop_spec min : ∀ m r acc,
  length (stream r).1 = m → wfReader r → length acc ≤ min →
  ∃ fuel0 r', wfReader r' ∧ seekView r' = seekView r ∧
    stream r' = (drop (min - length acc) (stream r).1, (stream r).2) ∧
    ∀ fuel, fuel0 ≤ fuel →
      readFullLoop fuel r min acc =
        Some (acc ++ take (min - length acc) (stream r).1,
              (if decide (min - length acc ≤ length (stream r).1) then None
               else Some (stream r).2), r').
Proof.
  intros m. induction (lt_wf m) as [m _ IH]. intros r acc Hm Hwf Hacc.
  destruct (decide (min ≤ length acc)) as [Hfull|Hmore].
  { exists 0, r. replace (min - length acc) with 0 by lia.
    split_and!; [done|done|by destruct (stream r)|].
    intros fuel _. destruct fuel; cbn [readFullLoop]; rewrite decide_True by done;
      rewrite take_0, app_nil_r; by rewrite decide_True by lia. }
  set (k := min - length acc) in *.
  pose proof (Read_spec r Hwf k) as Hspec. unfold readSpec in Hspec.
  pose proof (Read_seekView r k) as Hview.
  destruct (Read r k) as [[bs e] r1] eqn:Hread. simpl in Hview.
  destruct Hspec as (Hl & Hwf1 & He). destruct e as [err|].
  - destruct He as (-> & Hs & Hs1). exists 1, r1. rewrite Hs. cbn [fst snd].
    split_and!; [done|done|by rewrite drop_nil|].
    intros [|fuel] Hf; [lia|]. cbn [readFullLoop]. rewrite decide_False by done.
    fold k. rewrite Hread. rewrite take_nil. rewrite decide_False by (simpl; lia). done.
  - destruct He as [Hs Hprog]. specialize (Hprog ltac:(lia)).
    assert (length (stream r1).1 < m) as Hlt.
    { rewrite <- Hm, Hs. simpl. rewrite length_app. destruct bs; [done|]. simpl. lia. }
    destruct (IH _ Hlt r1 (acc ++ bs) eq_refl Hwf1) as (fuel0 & r' & Hwf' & Hv' & Hs' & Hloop).
    { rewrite length_app. lia. }
    rewrite length_app in Hs', Hloop.
    replace (min - (length acc + length bs)) with (k - length bs) in Hs', Hloop by lia.
    exists (S fuel0), r'. rewrite Hs. cbn [fst snd].
    split_and!; [done|congruence| |].
    + rewrite Hs'. f_equal. rewrite drop_app. rewrite (drop_ge bs) by lia. done.
    + intros [|fuel] Hf; [lia|]. cbn [readFullLoop]. rewrite decide_False by done.
      fold k. rewrite Hread. rewrite Hloop by lia. f_equal. f_equal. f_equal.
      * rewrite <- app_assoc. f_equal. rewrite take_app. by rewrite (take_ge bs) by lia.
      * rewrite length_app. repeat case_decide; done || lia.
Qed.




Section SniffingKeepsContent.
Variable httpDetectContentType : bytes → string.



End SniffingKeepsContent.



(** ** Further properties of the source *)

(** For parts that are all different and whose contents are not empty, the
    chunked reads, for every buffer size, and [WriteTo] give the same bytes:
    the encoding of the parts. *)
Theorem chunked_read_equals_WriteTo
    (c : nat) (ptrs : list nat) (s : Source) (h : Heap) (t : Sink) :
  0 < c → fresh s → parts s = PartSeq (map Some ptrs) → NoDup ptrs →
  Forall (λ p, p < length h) ptrs → Forall (copyable (isReaderFrom t)) h →
  Forall (λ p, contentBytes h p ≠ []) ptrs →
  readsOut c s h (encodeParts (boundary s) true h ptrs) EOF ∧
  ∃ fuel0, ∀ fuel, fuel0 ≤ fuel →
    ∃ s' h', Source_WriteTo fuel s h t =
               Some (Ok (length (encodeParts (boundary s) true h ptrs), None, s', h',
                         sinkWrite t (encodeParts (boundary s) true h ptrs))).
Proof.
  intros Hc (Hp & _ & Hw & Hl & Hf & Hcl) Hparts Hnd Hbound Hcopy Hne. split.
  - destruct (reads_sequence c Hc ptrs s h) as (out & Hout & _ & _ & Hexact);
      [unfold pending; by rewrite Hp|done|done|done| |done|].
    { eapply Forall_impl; [exact Hcopy|]. apply copyable_goodPart. }
    rewrite (Hexact Hnd Hne), Hw in Hout. exact Hout.
  - destruct (writes_sequence ptrs 0 s h t Hcopy Hbound)
      as (fuel0 & out & Hrun & _ & _ & Hexact).
    rewrite (Hexact Hnd), Hw in Hrun. exists fuel0. intros fuel Hfuel.
    destruct (Hrun fuel Hfuel) as (s' & h' & Hwr). exists s', h'.
    unfold Source_WriteTo. by rewrite Hcl, Hparts.
Qed.

Lemma chunked_read_equals_WriteTo_witness :
  readsOut 3 srcAAA twoParts (encodeParts (boundary srcAAA) true twoParts [0; 1]) EOF.
Proof.
  refine (proj1 (chunked_read_equals_WriteTo 3 [0; 1] srcAAA twoParts (mkSink [] true)
                   (Nat.lt_0_succ 2) _ eq_refl _ _ _ _)).
  - repeat split.
  - apply NoDup_cons. split; [|apply NoDup_singleton].
    intros Hin. apply list_elem_of_singleton in Hin. discriminate.
  - repeat constructor.
  - repeat constructor.
  - repeat constructor; vm_compute; discriminate.
Defined.

(** When the content of a part is no [io.WriterTo] and the sink no
    [io.ReaderFrom], [WriteTo] panics in [io.CopyBuffer]: the buffer it
    passes is the contents of a buffer it has just reset. *)
Theorem WriteTo_plain_copy_panics
    (fuel : nat) (s : Source) (h : Heap) (t : Sink) (ptr : nat)
    (rest : PartSeq2) (part : Part) (r : Reader) :
  closed s = false → parts s = (Some ptr, None) :: rest →
  h !! ptr = Some part → Content part = Some r →
  hasWriterTo r = false → isReaderFrom t = false →
  Source_WriteTo fuel s h t = Some (Panic "empty buffer in CopyBuffer").
Proof.
  intros Hcl Hparts Hp Hc Hk Hrf. unfold Source_WriteTo. rewrite Hcl, Hparts.
  cbn [writeParts]. rewrite Hp, Hc. unfold writePartContent. rewrite Hk.
  cbn [isReaderFrom sinkWrite]. rewrite Hrf. done.
Qed.

Lemma WriteTo_plain_copy_panics_witness :
  Source_WriteTo 5 srcOneAAA [SetContent NewPart (RStream 9 (bytes_of "foo") EOF)]
                 (mkSink [] false) =
    Some (Panic "empty buffer in CopyBuffer").
Proof.
  exact (WriteTo_plain_copy_panics 5 srcOneAAA
           [SetContent NewPart (RStream 9 (bytes_of "foo") EOF)] (mkSink [] false) 0 []
           (SetContent NewPart (RStream 9 (bytes_of "foo") EOF))
           (RStream 9 (bytes_of "foo") EOF) eq_refl eq_refl eq_refl eq_refl eq_refl eq_refl).
Defined.

Lemma lowerhex_boundaryChar k : k < 16 → boundaryChar (lowerhex k) = true.
Proof.
  intros Hk. do 16 (destruct k as [|k]; [reflexivity|]). lia.
Qed.

Lemma bytes_of_hexOf bs :
  bytes_of (hexOf bs) =
    concat (map (λ c, [lowerhex (nat_of_ascii c / 16); lowerhex (nat_of_ascii c mod 16)]) bs).
Proof. unfold bytes_of, hexOf. apply String.list_ascii_of_string_of_list_ascii. Qed.

Lemma hex_length bs : length (bytes_of (hexOf bs)) = 2 * length bs.
Proof.
  rewrite bytes_of_hexOf. induction bs as [|b bs IH]; [done|]. simpl in *. lia.
Qed.

Lemma hex_chars bs c : c ∈ bytes_of (hexOf bs) → boundaryChar c = true.
Proof.
  rewrite bytes_of_hexOf. intros Hin. apply list_elem_of_In, in_concat in Hin.
  destruct Hin as (l & Hl & Hc). apply in_map_iff in Hl as (b & <- & _).
  pose proof (nat_ascii_bounded b) as Hb.
  assert (nat_of_ascii b / 16 < 16) by (apply Nat.Div0.div_lt_upper_bound; lia).
  assert (nat_of_ascii b mod 16 < 16) by (apply Nat.mod_upper_bound; lia).
  simpl in Hc. destruct Hc as [<-|[<-|[]]]; by apply lowerhex_boundaryChar.
Qed.

(** The boundary a new source draws from 30 random bytes has 60
    characters, and [SetBoundary] would accept it. *)
Theorem NewSource_boundary_valid (ps : PartSeq2) (rnd : bytes) :
  30 ≤ length rnd →
  String.length (Boundary (NewSource ps rnd)) = 60 ∧
  validBoundary (Boundary (NewSource ps rnd)) ∧
  ∀ s, lastPart s = None →
       Source_SetBoundary s (Boundary (NewSource ps rnd)) =
         (setBoundary s (Boundary (NewSource ps rnd)), None).
Proof.
  intros Hrnd. unfold Boundary. cbn [NewSource boundary].
  assert (length (bytes_of (hexOf (take 30 rnd))) = 60) as Hlen.
  { rewrite hex_length, length_take. lia. }
  assert (∀ i c, bytes_of (hexOf (take 30 rnd)) !! i = Some c → boundaryChar c = true)
    as Hchars.
  { intros i c Hi. eapply hex_chars, list_elem_of_lookup_2, Hi. }
  split_and!.
  - by rewrite <- length_bytes_of.
  - split; [lia|]. intros i c Hi. left. by eapply Hchars.
  - intros s Hlast. unfold Source_SetBoundary. rewrite Hlast.
    rewrite <- length_bytes_of, Hlen. rewrite bool_decide_false by lia.
    replace (boundaryLoop _ 0 0 _) with true; [done|]. symmetry.
    apply boundaryLoop_spec. intros j c Hj. left. by eapply Hchars.
Qed.

Lemma NewSource_boundary_valid_witness :
  String.length (Boundary (NewSource [] (replicate 30 zeroByte))) = 60.
Proof.
  refine (proj1 (NewSource_boundary_valid [] (replicate 30 zeroByte) _)).
  apply Nat.leb_le. reflexivity.
Defined.

(** The header keys of a heading: every key of the map once, in ascending
    byte-wise order. *)
Theorem sortedKeys_sorted (h : MIMEHeader) :
  Sorted strLe (sortedKeys h) ∧ NoDup (sortedKeys h) ∧
  ∀ k, k ∈ sortedKeys h ↔ is_Some (h !! k).
Proof.
  unfold sortedKeys. split_and!.
  - apply Sorted_merge_sort. apply _.
  - rewrite merge_sort_Permutation. apply NoDup_fst_map_to_list.
  - intros k. rewrite merge_sort_Permutation. rewrite list_elem_of_fmap. split.
    + intros ([k' v] & -> & Hin). apply elem_of_map_to_list in Hin. simpl. eauto.
    + intros [v Hv]. exists (k, v). split; [done|]. by apply elem_of_map_to_list.
Qed.

Lemma readBody_bound s h n bs e s' h' :
  contentsWf h → readBody s h n = Ok (bs, e, s', h') →
  length bs ≤ n ∧ boundary s' = boundary s ∧ parts s' = parts s ∧
  closed s' = closed s ∧ pull s' = pull s ∧ length h' = length h.
Proof.
  intros Hwf. unfold readBody.
  assert (length (take n (buffered s)) ≤ n) as Htake by (rewrite length_take; lia).
  destruct (decide (0 < length (buffered s))) as [Hb|Hb].
  - unfold bufferRead. destruct (buffered s) as [|b0 buf] eqn:Hbuf; [simpl in Hb; lia|].
    cbn [isEOF setBuffered finalizing lastPart].
    destruct (finalizing s).
    { case_decide as Hd; intros H; inversion H; subst; cbn; split_and!; done || lia. }
    destruct (lastPart s) as [ptr|]; [|done].
    destruct (h !! ptr) as [part|] eqn:Hp; [|done].
    destruct (Content part) as [r|] eqn:Hc; [|done].
    pose proof (proj1 (Forall_lookup _ _) Hwf ptr part Hp r Hc) as Hr.
    pose proof (Read_spec r Hr (n - length (take n (b0 :: buf)))) as Hspec.
    unfold readSpec in Hspec.
    destruct (Read r (n - length (take n (b0 :: buf)))) as [[bs2 e2] r'].
    destruct Hspec as (Hl2 & _ & _).
    destruct e2 as [err|]; [destruct (isEOF err)|]; intros H; inversion H; subst;
      cbn; rewrite ?length_app, ?length_insert; split_and!; done || lia.
  - destruct (finalizing s).
    { simpl. intros H; inversion H; subst; cbn; split_and!; done || lia. }
    destruct (lastPart s) as [ptr|]; [|done].
    destruct (h !! ptr) as [part|] eqn:Hp; [|done].
    destruct (Content part) as [r|] eqn:Hc; [|done].
    pose proof (proj1 (Forall_lookup _ _) Hwf ptr part Hp r Hc) as Hr.
    pose proof (Read_spec r Hr (n - length (@nil ascii))) as Hspec.
    unfold readSpec in Hspec.
    destruct (Read r (n - length (@nil ascii))) as [[bs2 e2] r'].
    destruct Hspec as (Hl2 & _ & _). simpl in Hl2.
    destruct e2 as [err|]; [destruct (isEOF err)|]; intros H; inversion H; subst;
      cbn; rewrite ?length_insert; split_and!; done || lia.
Qed.

(** [Read] delivers at most [len(p)] bytes, and changes neither the boundary,
    nor the sequence, nor the number of parts, nor whether the source is
    closed. *)
Theorem Read_within_buffer (s : Source) (h : Heap) (n : nat)
    (bs : bytes) (e : option error) (s' : Source) (h' : Heap) :
  contentsWf h → Source_Read s h n = Ok (bs, e, s', h') →
  length bs ≤ n ∧ Boundary s' = Boundary s ∧ parts s' = parts s ∧
  closed s' = closed s ∧ length h' = length h.
Proof.
  intros Hwf. unfold Source_Read, Boundary. destruct (closed s) eqn:Hcl.
  { intros H; inversion H; subst. split_and!; try done; try (simpl; lia); congruence. }
  fold (pulled s).
  assert (boundary (pulled s) = boundary s ∧ parts (pulled s) = parts s ∧
          closed (pulled s) = closed s) as (Hb & Hp & Hc).
  { unfold pulled. by destruct (pull s). }
  destruct (bool_decide (lastPart (pulled s) = None) && negb (finalizing (pulled s))).
  - destruct (pull (pulled s)) as [[|[part err] rest]|].
    + cbn. intros H; inversion H; subst. cbn. rewrite length_take.
      split_and!; try done; try lia; congruence.
    + destruct err as [err|].
      { intros H; inversion H; subst. cbn. split_and!; try done; try lia; congruence. }
      destruct part as [ptr|]; [|done]. destruct (h !! ptr) as [pt|]; [|done].
      intros H. apply readBody_bound in H as (? & Hb' & Hp' & Hc' & _ & ?); [|done].
      cbn in Hb', Hp', Hc'. split_and!; try done; congruence.
    + cbn. intros H; inversion H; subst. cbn. rewrite length_take.
      split_and!; try done; try lia; congruence.
  - intros H. apply readBody_bound in H as (? & Hb' & Hp' & Hc' & _ & ?); [|done].
    split_and!; try done; congruence.
Qed.

Lemma Read_within_buffer_witness :
  match Source_Read srcAAA twoParts 5 with
  | Ok (bs, _, _, _) => length bs ≤ 5
  | Panic _ => True
  end.
Proof.
  destruct (Source_Read srcAAA twoParts 5) as [[[[bs e] s'] h']|] eqn:H; [|exact I].
  refine (proj1 (Read_within_buffer srcAAA twoParts 5 bs e s' h' _ H)).
  repeat (constructor; [intros r Hr; inversion Hr; exact I|]). constructor.
Defined.

(** [Reset] on a source on which [Read] was never called arms it with the
    new sequence and a new random boundary: the reads then end with the new
    trailer, and give the encoding of the new parts when these are all
    different and their contents not empty. *)
Theorem Reset_unread_rearms
    (c : nat) (s : Source) (ptrs : list nat) (rnd : bytes) (h : Heap) :
  0 < c → pull s = None →
  Forall (λ p, p < length h) ptrs → Forall goodPart h →
  ∃ out, readsOut c (Source_Reset s (PartSeq (map Some ptrs)) rnd) h out EOF ∧
         ending (hexOf (take 30 rnd)) `suffix_of` out ∧
         (NoDup ptrs → Forall (λ p, contentBytes h p ≠ []) ptrs →
          out = encodeParts (hexOf (take 30 rnd)) true h ptrs).
Proof.
  intros Hc Hpull Hbound Hgood.
  destruct (reads_sequence c Hc ptrs (Source_Reset s (PartSeq (map Some ptrs)) rnd) h)
    as (out & Hout & Hsuf & _ & Hexact); try done.
  { unfold pending, Source_Reset, stopPull. rewrite Hpull. cbn. by rewrite Hpull. }
  exists out. split_and!; done.
Qed.

Lemma Reset_unread_rearms_witness :
  ∃ out, readsOut 3 (Source_Reset srcEmptyAAA (PartSeq (map Some [0; 1])) []) twoParts out EOF ∧
         ending (hexOf (take 30 [])) `suffix_of` out.
Proof.
  destruct (Reset_unread_rearms 3 srcEmptyAAA [0; 1] [] twoParts (Nat.lt_0_succ 2) eq_refl)
    as (out & H1 & H2 & _).
  - repeat constructor.
  - repeat constructor.
  - exists out. split; [exact H1|exact H2].
Defined.

(** [Reset] on a source on which [Read] was called keeps the pull iterator
    of the old sequence, stopped: whatever the new sequence is, the reads
    give the trailer alone. *)
Theorem Reset_after_Read_reads_trailer_only
    (c : nat) (s : Source) (ps : PartSeq2) (rnd : bytes) (h : Heap) :
  0 < c → pull s ≠ None →
  readsOut c (Source_Reset s ps rnd) h (ending (hexOf (take 30 rnd))) EOF.
Proof.
  intros Hc Hpull.
  assert (pending (Source_Reset s ps rnd) = []) as Hpend.
  { unfold pending, Source_Reset, stopPull. by destruct (pull s). }
  destruct (Read_finalize (Source_Reset s ps rnd) h c Hc eq_refl eq_refl eq_refl Hpend)
    as (s' & Hread & Hb & Hf & Hcl).
  change (boundary (Source_Reset s ps rnd)) with (hexOf (take 30 rnd)) in *.
  rewrite <- (take_drop c (ending (hexOf (take 30 rnd)))).
  eapply readsOut_step; [exact Hread|]. rewrite <- Hb. by apply readsOut_finalizing.
Qed.

Lemma Reset_after_Read_reads_trailer_only_witness :
  readsOut 3 (Source_Reset (afterRead (Source_Read srcAAA twoParts 5)).1
                           (PartSeq [Some 0]) [])
           twoParts (ending (hexOf (take 30 []))) EOF.
Proof.
  apply (Reset_after_Read_reads_trailer_only 3
           (afterRead (Source_Read srcAAA twoParts 5)).1 (PartSeq [Some 0]) [] twoParts
           (Nat.lt_0_succ 2)).
  vm_compute. discriminate.
Defined.

(** ** Further properties of parts *)

Section PartNames.
Variable ParseMediaType : string → string * option (gmap string string) * option error.
Variable filepathBase : string → string.

(** [FormName] on a part without a Content-Disposition header is empty; on
    a part whose header is not the value held in [p.disposition] (or whose
    parameters are nil) it is the name parameter of the parsed header when
    the media type is [form-data], and empty otherwise. *)
Theorem FormName_parses_header (g : gmap string string) (p : Part)
    (v d : string) (tl : list string) (m : gmap string string) :
  headerValues (Header p) contentDispositionHeader = v :: tl →
  dispositionParams p = PNil ∨ disposition p ≠ v →
  ParseMediaType v = (d, Some m, None) →
  (FormName ParseMediaType g p).1 =
    (if bool_decide (d = formDataDisposition) then default "" (m !! "name") else "") ∧
  ∀ q, headerValues (Header q) contentDispositionHeader = [] →
       (FormName ParseMediaType g q).1 = "".
Proof.
  intros Hv Hmiss Hparse. split.
  - unfold FormName, parseContentDisposition. rewrite Hv.
    assert (paramsNonNil (dispositionParams p) && bool_decide (disposition p = v) = false)
      as ->.
    { destruct Hmiss as [-> | Hne]; [done|].
      rewrite (bool_decide_false _ Hne). apply andb_false_r. }
    rewrite Hparse. cbn [setDisposition disposition dispositionParams paramsMap].
    destruct (decide (d = formDataDisposition)) as [->|Hd].
    + rewrite bool_decide_false by (by intros []). by rewrite bool_decide_true.
    + rewrite bool_decide_true by done. by rewrite bool_decide_false.
  - intros q Hq. unfold FormName, parseContentDisposition. rewrite Hq.
    cbn [setDisposition disposition]. by rewrite bool_decide_true.
Qed.

(** The parameters of parts without a Content-Disposition header are one
    shared map: [SetFileName] on such a part, after [FormName] was asked of
    it, writes the file name into that map, and [FileName] of any other
    part without the header then returns it. *)
Theorem SetFileName_leaks_into_shared_params
    (g : gmap string string) (a b : Part) (f : string) :
  headerValues (Header a) contentDispositionHeader = [] → Header a ≠ None →
  headerValues (Header b) contentDispositionHeader = [] → f ≠ "" →
  ∃ a', SetFileName g (FormName ParseMediaType g a).2 f = Ok (<["filename" := f]> g, a') ∧
        (FileName ParseMediaType filepathBase (<["filename" := f]> g) b).1 = filepathBase f.
Proof.
  intros Ha Hha Hb Hf.
  assert ((FormName ParseMediaType g a).2 = setDisposition a "" PShared) as ->.
  { unfold FormName, parseContentDisposition. rewrite Ha.
    cbn [setDisposition disposition]. by rewrite bool_decide_true. }
  destruct (Header a) as [ha|] eqn:Hhdr; [|done].
  unfold SetFileName. cbn [setDisposition dispositionParams paramsSet Header].
  rewrite Hhdr. cbn [mbind exec_bind paramsMap headerSet]. eexists. split; [reflexivity|].
  unfold FileName, parseContentDisposition. rewrite Hb.
  cbn [setDisposition dispositionParams paramsMap]. rewrite lookup_insert_eq.
  cbn [default]. by rewrite bool_decide_false.
Qed.
End PartNames.

Lemma SetFileName_leaks_into_shared_params_witness :
  (FileName noParse id (<["filename" := "x.txt"]> ∅) NewPart).1 = "x.txt".
Proof.
  destruct (SetFileName_leaks_into_shared_params noParse id ∅ NewPart NewPart "x.txt")
    as (a' & _ & H); [reflexivity|discriminate|reflexivity|discriminate|exact H].
Defined.

Lemma FormName_parses_header_witness :
  (FormName parseFoo ∅ headerOnlyPart).1 = "foo".
Proof.
  refine (proj1 (FormName_parses_header parseFoo ∅ headerOnlyPart
                   "form-data; name=foo" "form-data" [] {["name" := "foo"]} _ _ eq_refl)).
  - vm_compute. reflexivity.
  - left. reflexivity.
Defined.

(** [SetFileName] on a new part panics: its parameter map is nil until
    [SetFormName] makes one.  After [SetFormName n], [SetFileName f] sets
    the Content-Disposition header to the serialisation of both parameters
    and the Content-Type header to [application/octet-stream]. *)
Theorem SetFormName_then_SetFileName (g : gmap string string) (n f : string) :
  SetFileName g NewPart f = Panic "assignment to entry in nil map" ∧
  ∃ p1 p2,
    SetFormName g NewPart n = Ok (g, p1) ∧ SetFileName g p1 f = Ok (g, p2) ∧
    Header p2 =
      Some (<[contentTypeHeader := ["application/octet-stream"]]>
              {[contentDispositionHeader :=
                  [FormatMediaType formDataDisposition
                     (<["filename" := f]> {["name" := n]})]]}) ∧
    dispositionParams p2 = POwn (<["filename" := f]> {["name" := n]}).
Proof.
  split; [reflexivity|].
  remember (FormatMediaType formDataDisposition (<["filename" := f]> {["name" := n]}))
    as d2 eqn:Hd2.
  unfold SetFormName. cbn [NewPart dispositionParams paramsSet Header headerSet].
  cbn [mbind exec_bind paramsMap]. rewrite !insert_empty.
  generalize (FormatMediaType formDataDisposition {["name" := n]}). intros d1.
  exists (setHeader (setDisposition NewPart d1 (POwn {["name" := n]}))
            (Some {[contentDispositionHeader := [d1]]})).
  exists (setHeader
            (setDisposition
               (setHeader (setDisposition NewPart d1 (POwn {["name" := n]}))
                  (Some {[contentDispositionHeader := [d1]]}))
               d2 (POwn (<["filename" := f]> {["name" := n]})))
            (Some (<[contentTypeHeader := ["application/octet-stream"]]>
                     {[contentDispositionHeader := [d2]]}))).
  split; [reflexivity|]. split; [|split; reflexivity].
  unfold SetFileName. cbn [setHeader setDisposition dispositionParams paramsSet Header headerSet].
  cbn [mbind exec_bind paramsMap headerSet].
  rewrite <- Hd2. rewrite <- (insert_empty contentDispositionHeader [d1]).
  rewrite insert_insert_eq, insert_empty. reflexivity.
Qed.

(** [SetContentType] then [ContentType] gives the type back, also on a part
    whose header map is nil, and leaves the other headers as they were. *)
Theorem ContentType_after_SetContentType (p : Part) (ct : string) :
  ContentType (SetContentType p ct) = ct ∧
  ∀ k, k ≠ contentTypeHeader →
       headerValues (Header (SetContentType p ct)) k = headerValues (Header p) k.
Proof.
  unfold ContentType, headerGet, headerValues, SetContentType. cbn [setHeader Header].
  split.
  - by rewrite lookup_insert_eq.
  - intros k Hk. rewrite lookup_insert_ne by done. destruct (Header p); [done|].
    by rewrite lookup_empty.
Qed.

(** ** What the sniffing looks at *)

Lemma fillLoop_progress i size buf rd :
  0 < i → length buf < size → wfReader rd →
  let '(buf', err', rd') := fillLoop i size buf rd in
  err' ≠ None ∨ length buf < length buf'.
Proof.
  intros Hi Hlen Hwf. destruct i as [|i]; [lia|]. cbn [fillLoop].
  pose proof (Read_spec rd Hwf (size - length buf)) as Hspec. unfold readSpec in Hspec.
  destruct (Read rd (size - length buf)) as [[bs e] rd1].
  destruct Hspec as (Hl & Hwf1 & He). destruct e as [err|]; [by left|].
  destruct He as [Hs Hprog]. specialize (Hprog ltac:(lia)).
  rewrite decide_True by (destruct bs; [done|simpl; lia]).
  right. rewrite length_app. destruct bs; [done|simpl; lia].
Qed.

(** [Peek] goes on until it has [n] bytes or an error. *)
Lemma peekLoop_full n size : ∀ fuel buf err rd,
  wfReader (RBufio size buf err rd) → n ≤ size →
  err ≠ None ∨ size < length buf + fuel →
  ∃ buf' err' rd',
    peekLoop fuel n size buf err rd = Ok (buf', err', rd') ∧
    (n ≤ length buf' ∨ err' ≠ None) ∧
    wfReader (RBufio size buf' err' rd') ∧
    stream (RBufio size buf' err' rd') = stream (RBufio size buf err rd).
Proof.
  induction fuel as [|fuel IH]; intros buf err rd Hwf Hn Hmeasure; cbn [peekLoop].
  { exists buf, err, rd. split_and!; [done| |done|done].
    destruct Hmeasure as [?|?]; [by right|left; lia]. }
  case_decide as Hg.
  - destruct Hg as (_ & Hlt & ->).
    unfold bufioFill. rewrite decide_False by lia. cbn [mbind exec_bind].
    destruct Hwf as (Hsize & Hwf & _).
    pose proof (fillLoop_spec maxConsecutiveEmptyReads size buf rd) as Hfill.
    pose proof (fillLoop_progress maxConsecutiveEmptyReads size buf rd) as Hprog.
    destruct (fillLoop maxConsecutiveEmptyReads size buf rd) as [[buf1 err1] rd1].
    destruct Hfill as [Hwf1 Hs1]; [unfold maxConsecutiveEmptyReads; lia|done|done|].
    specialize (Hprog ltac:(unfold maxConsecutiveEmptyReads; lia) Hlt Hwf).
    destruct (IH buf1 err1 rd1 Hwf1 Hn) as (buf' & err' & rd' & Hloop & Hfull & Hwf' & Hs').
    { destruct Hprog as [?|?]; [by left|]. destruct Hmeasure as [?|?]; [done|right; lia]. }
    exists buf', err', rd'. split_and!; [done|done|done|]. by rewrite Hs'.
  - exists buf, err, rd. split_and!; [done| |done|done].
    destruct (decide (err = None)) as [->|?]; [|by right]. left.
    destruct (decide (length buf < n)); [|lia].
    destruct (decide (length buf < size)); [|lia]. by destruct Hg.
Qed.

(** [Peek(n)] gives the first [n] bytes of what the reader has yet to
    deliver, fewer when the reader ends before. *)
Lemma bufioPeek_sig size buf err rd n :
  wfReader (RBufio size buf err rd) → n ≤ size →
  ∃ sig br, bufioPeek (RBufio size buf err rd) n = Ok (sig, br) ∧
            sig = take n (stream (RBufio size buf err rd)).1.
Proof.
  intros Hwf Hn. unfold bufioPeek.
  destruct (peekLoop_full n size (S size) buf err rd Hwf Hn)
    as (buf' & err' & rd' & -> & Hfull & Hwf' & Hs'); [right; lia|].
  cbn [mbind exec_bind]. rewrite <- Hs'. destruct Hwf' as (_ & _ & Herr).
  case_decide as Hshort.
  - do 2 eexists. split; [reflexivity|].
    destruct Hfull as [?|Hne]; [lia|]. destruct err' as [e|]; [|done].
    cbn [stream fst]. by rewrite take_ge by lia.
  - do 2 eexists. split; [reflexivity|]. cbn [stream].
    destruct err' as [e|]; [done|]. cbn [fst]. by rewrite take_app_le by lia.
Qed.

Lemma NewReaderSize_size rd size :
  wfReader rd →
  ∃ sz buf err rd0, NewReaderSize rd size = RBufio sz buf err rd0 ∧ size ≤ sz ∧
    wfReader (RBufio sz buf err rd0) ∧ stream (RBufio sz buf err rd0) = stream rd.
Proof.
  intros Hwf. unfold NewReaderSize.
  assert (∃ sz buf err rd0,
            RBufio (size `max` 16) [] None rd = RBufio sz buf err rd0 ∧ size ≤ sz ∧
            wfReader (RBufio sz buf err rd0) ∧ stream (RBufio sz buf err rd0) = stream rd)
    as Hnew.
  { do 4 eexists. split; [reflexivity|]. cbn [wfReader stream].
    split; [lia|]. split; [split_and!; [lia|done|done]|]. simpl. by destruct (stream rd). }
  destruct rd as [| | | |sz buf err rd0|]; try exact Hnew.
  case_decide; [|exact Hnew]. by do 4 eexists.
Qed.

Section SniffedBytes.
Variable httpDetectContentType : bytes → string.

(** [DetectContentType] through a [bufio.Reader] sets the Content-Type
    header to what [http.DetectContentType] says of the first 512 bytes the
    content has yet to deliver, of all of them when they are fewer, however
    the reader hands them out and whatever error ends them. *)
Theorem DetectContentType_sniffs_prefix (p : Part) (r : Reader) :
  Content p = Some r → wfReader r →
  ∃ p', DetectContentType httpDetectContentType p = Ok p' ∧
        ContentType p' = httpDetectContentType (take sniffLen (stream r).1).
Proof.
  intros Hc Hwf. unfold DetectContentType. rewrite Hc.
  destruct (NewReaderSize_size r sniffLen Hwf)
    as (sz & buf & err & rd0 & -> & Hsz & Hwf0 & Hs0).
  destruct (bufioPeek_sig sz buf err rd0 sniffLen Hwf0 Hsz) as (sig & br & -> & ->).
  cbn [mbind exec_bind]. eexists. split; [reflexivity|].
  rewrite Hs0. unfold ContentType, headerGet, headerValues, SetContentType.
  cbn [setHeader Header]. by rewrite lookup_insert_eq.
Qed.

(** [DetectContentType] through [io.ReadFull], for a content that ends
    with [io.EOF] and a signature buffer of 512 bytes: the Content-Type
    header is what [http.DetectContentType] says of the first 512 bytes of
    the content. *)
Theorem DetectContentType_ReadFull_sniffs_prefix (p : Part) (r : Reader) (s : bytes) :
  Content p = Some r → wfReader r → stream r = (s, EOF) →
  (∀ sig, signature p = Some sig → length sig = 512) →
  ∃ fuel0, ∀ fuel, fuel0 ≤ fuel →
    ∃ p', DetectContentType_ReadFull httpDetectContentType fuel p = Some (Ok p') ∧
          ContentType p' = httpDetectContentType (take 512 s).
Proof.
  intros Hc Hwf Hs Hsig. unfold DetectContentType_ReadFull. rewrite Hc.
  set (old := default (replicate 512 zeroByte) (signature p)).
  assert (length old = 512) as Hold.
  { subst old. destruct (signature p) as [sig|]; [by apply Hsig|]. apply length_replicate. }
  destruct (readFullLoop_spec (length old) _ r [] eq_refl Hwf)
    as (fuel0 & r1 & Hwf1 & Hview & Hs1 & Hloop); [simpl; lia|].
  rewrite Hs in Hs1, Hloop. cbn [fst snd length] in Hs1, Hloop.
  rewrite Nat.sub_0_r in Hs1, Hloop. cbn [app] in Hloop.
  exists fuel0. intros fuel Hfuel. unfold ioReadFull. rewrite (Hloop fuel Hfuel).
  cbn [mbind option_bind]. rewrite length_take. rewrite Hold.
  assert (∀ q ct, ContentType (SetContentType q ct) = ct) as Hct.
  { intros q ct. unfold ContentType, headerGet, headerValues, SetContentType.
    cbn [setHeader Header]. by rewrite lookup_insert_eq. }
  destruct (decide (512 ≤ length s)) as [Hfull|Hshort].
  - rewrite decide_True by lia.
    replace (512 `min` length s) with 512 by lia.
    rewrite drop_ge, app_nil_r by lia.
    eexists. split; [reflexivity|].
    destruct r1 as [k data pos1| | | | |]; [destruct k as [| |[e|]]|..]; apply Hct.
  - repeat (rewrite decide_False by lia). rewrite take_ge by lia.
    assert (∀ q bs, ContentType (SetContentBytes q bs) = ContentType q) as Hcb.
    { intros q bs. unfold SetContentBytes. by destruct (Content q) as [[[]| | | | |]|]. }
    eexists. split; [reflexivity|].
    destruct (decide (0 < 512 `min` length s ∧ EOF = EOF));
      cbn [isEOF isUnexpectedEOF orb]; rewrite Hcb; apply Hct.
Qed.

(** [DetectContentType] through [io.ReadFull], for a content that fails
    with an error other than the end of the input before the signature
    buffer is full: the content becomes a reader that delivers no byte and
    reports the error, wrapped; the bytes that came before the error are
    not in the content any more, and the header is as it was. *)
Theorem DetectContentType_ReadFull_failure (p : Part) (r : Reader) (s : bytes) (e : error) :
  Content p = Some r → wfReader r → stream r = (s, e) →
  isEOF e = false → isUnexpectedEOF e = false →
  length s < length (default (replicate 512 zeroByte) (signature p)) →
  ∃ fuel0, ∀ fuel, fuel0 ≤ fuel →
    ∃ p', DetectContentType_ReadFull httpDetectContentType fuel p = Some (Ok p') ∧
          Content p' =
            Some (RError (ErrWrap "peeking content for detecting content type" e)) ∧
          Header p' = Header p ∧
          ∀ r' n, Content p' = Some r' →
                  (Read r' n).1 =
                    ([], Some (ErrWrap "peeking content for detecting content type" e)).
Proof.
  intros Hc Hwf Hs Heof Hueof Hlen. unfold DetectContentType_ReadFull. rewrite Hc.
  set (old := default (replicate 512 zeroByte) (signature p)) in *.
  destruct (readFullLoop_spec (length old) _ r [] eq_refl Hwf)
    as (fuel0 & r1 & Hwf1 & Hview & Hs1 & Hloop); [simpl; lia|].
  rewrite Hs in Hs1, Hloop. cbn [fst snd length] in Hs1, Hloop.
  rewrite Nat.sub_0_r in Hs1, Hloop. cbn [app] in Hloop.
  exists fuel0. intros fuel Hfuel. unfold ioReadFull. rewrite (Hloop fuel Hfuel).
  cbn [mbind option_bind]. rewrite length_take.
  rewrite decide_False by lia. rewrite decide_False by lia.
  rewrite decide_False by (intros [_ ->]; done).
  rewrite Heof, Hueof. cbn [orb].
  eexists. split; [reflexivity|]. cbn [SetContent setContent setSignature Content Header].
  split_and!; [done|done|]. intros r' n [= <-]. done.
Qed.
End SniffedBytes.

Lemma DetectContentType_sniffs_prefix_witness :
  ∃ p', DetectContentType (λ _, "text/html; charset=utf-8") htmlPart = Ok p' ∧
        ContentType p' = "text/html; charset=utf-8".
Proof.
  exact (DetectContentType_sniffs_prefix (λ _, "text/html; charset=utf-8") htmlPart
           (RSeek KStrings (bytes_of "<html><body>test</body></html>") 0) eq_refl I).
Defined.

Lemma DetectContentType_ReadFull_sniffs_prefix_witness :
  ∃ fuel0, ∀ fuel, fuel0 ≤ fuel →
    ∃ p', DetectContentType_ReadFull (λ _, "text/html; charset=utf-8") fuel htmlPart
            = Some (Ok p') ∧
          ContentType p' = "text/html; charset=utf-8".
Proof.
  apply (DetectContentType_ReadFull_sniffs_prefix (λ _, "text/html; charset=utf-8") htmlPart
           (RSeek KStrings (bytes_of "<html><body>test</body></html>") 0)
           (bytes_of "<html><body>test</body></html>")).
  - reflexivity.
  - exact I.
  - reflexivity.
  - intros sig H. discriminate H.
Defined.

Lemma DetectContentType_ReadFull_failure_witness :
  ∃ fuel0, ∀ fuel, fuel0 ≤ fuel →
    ∃ p', DetectContentType_ReadFull (λ _, "text/plain") fuel failingPart = Some (Ok p') ∧
          Content p' =
            Some (RError (ErrWrap "peeking content for detecting content type"
                            (ErrOther "broken pipe"))) ∧
          Header p' = Header failingPart ∧
          ∀ r' n, Content p' = Some r' →
                  (Read r' n).1 =
                    ([], Some (ErrWrap "peeking content for detecting content type"
                                 (ErrOther "broken pipe"))).
Proof.
  apply (DetectContentType_ReadFull_failure (λ _, "text/plain") failingPart
           (RStream 0 (bytes_of "ab") (ErrOther "broken pipe")) (bytes_of "ab")
           (ErrOther "broken pipe")).
  - reflexivity.
  - exact I.
  - reflexivity.
  - reflexivity.
  - reflexivity.
  - apply Nat.ltb_lt. reflexivity.
Defined.

(** ** An error of the part sequence *)

Lemma runsTo_trans c s h o1 s1 h1 o2 s2 h2 :
  runsTo c s h o1 s1 h1 → runsTo c s1 h1 o2 s2 h2 → runsTo c s h (o1 ++ o2) s2 h2.
Proof.
  induction 1 as [|s h bs sa ha out sb hb Hread Hrun IH]; intros Hnext; [done|].
  rewrite <- app_assoc. eapply runs_step; [exact Hread|]. by apply IH.
Qed.

(** Reading streams the parts that come first in the sequence and stops
    between two parts, before whatever the sequence yields next. *)
Lemma reads_prefix c :
  0 < c → ∀ ptrs s h tail,
  pending s = PartSeq (map Some ptrs) ++ tail →
  closed s = false → finalizing s = false → lastPart s = None →
  Forall goodPart h → Forall (λ p, p < length h) ptrs →
  ∃ out s' h',
    runsTo c s h out s' h' ∧ pending s' = tail ∧
    closed s' = false ∧ finalizing s' = false ∧ lastPart s' = None ∧
    boundary s' = boundary s ∧
    (NoDup ptrs → Forall (λ p, contentBytes h p ≠ []) ptrs →
     out ++ ending (boundary s) =
       encodeParts (boundary s) (negb (firstHeadingWritten s)) h ptrs).
Proof.
  intros Hc ptrs. induction ptrs as [|ptr rest IH];
    intros s h tail Hpend Hcl Hfin Hlast Hgood Hbound.
  - exists [], s, h. split_and!; try done. constructor.
  - apply Forall_cons in Hbound as [Hlt Hbound].
    destruct (lookup_lt_is_Some_2 h ptr Hlt) as [pt Hp].
    simpl in Hpend.
    set (sA := populatePartHeading
                 (setLastPart (setPull (pulled s) (Some (PartSeq (map Some rest) ++ tail)))
                    (Some ptr))
                 pt).
    assert (closed (pulled s) = false ∧ finalizing (pulled s) = false ∧
            boundary (pulled s) = boundary s ∧
            firstHeadingWritten (pulled s) = firstHeadingWritten s)
      as (Hc0 & Hf0 & Hb0 & Hw0).
    { unfold pulled. by destruct (pull s). }
    destruct (streams_part c Hc _ sA h ptr eq_refl) as
      (bs & s1 & h1 & out1 & s2 & h2 & Hbody & Hruns & Hl2 & Hcfg & Hmv & Hcb & Hfull & Hcut);
      [done|done|done|done|done|done|].
    destruct Hcfg as (Hb2 & _ & Hp2 & Hw2 & Hc2 & Hf2).
    destruct Hmv as (Hlen2 & Hoth2 & Hhdr2 & Hgood2).
    cbn [sA populatePartHeading setLastPart setPull boundary pull firstHeadingWritten
         closed finalizing] in Hb2, Hp2, Hw2, Hc2, Hf2.
    destruct (IH s2 h2 tail) as (out2 & s' & h' & Hrun2 & Hpend' & Hcl' & Hfin' & Hlast' & Hb' & Hexact2).
    { unfold pending. by rewrite Hp2. }
    { congruence. }
    { congruence. }
    { done. }
    { done. }
    { by rewrite Hlen2. }
    exists ((bs ++ out1) ++ out2), s', h'. split_and!; try done.
    + eapply runsTo_trans; [|exact Hrun2].
      eapply runs_step; [|exact Hruns].
      rewrite (Read_pull s h c ptr (PartSeq (map Some rest) ++ tail) pt) by done. exact Hbody.
    + congruence.
    + intros Hnd Hne. apply NoDup_cons in Hnd as [Hnotin Hnd].
      apply Forall_cons in Hne as [Hne0 Hne].
      assert (Forall (λ q, h2 !! q = h !! q) rest) as Hsame.
      { apply Forall_forall. intros q Hq. apply Hoth2. intros ->. done. }
      rewrite (Hfull Hne0). rewrite <- !app_assoc.
      rewrite <- Hb0, <- Hb2. rewrite app_assoc. rewrite Hexact2.
      * rewrite Hb2, Hw2, Hb0. simpl.
        rewrite (encodeParts_ext _ _ h h2) by done.
        cbn [sA populatePartHeading buffered firstHeadingWritten setLastPart setPull boundary].
        rewrite Hw0, Hb0. unfold headerAt at 1. rewrite Hp. by rewrite <- !app_assoc.
      * done.
      * apply Forall_forall. intros q Hq.
        pose proof (proj1 (Forall_forall _ _) Hne q Hq) as Hq1.
        pose proof (proj1 (Forall_forall _ _) Hsame q Hq) as Hq2.
        simpl in Hq1, Hq2. unfold contentBytes in *. by rewrite Hq2.
Qed.

Lemma Read_sequence_error s h c x e rest :
  closed s = false → finalizing s = false → lastPart s = None →
  pending s = (x, Some e) :: rest →
  Source_Read s h c = Ok ([], Some e, setPull (pulled s) (Some rest), h).
Proof.
  intros Hcl Hfin Hlast Hpend. unfold Source_Read. rewrite Hcl. fold (pulled s).
  assert (lastPart (pulled s) = None ∧ finalizing (pulled s) = false) as (Hl & Hf).
  { unfold pulled. by destruct (pull s). }
  rewrite Hl, Hf, pull_pulled, Hpend. by rewrite bool_decide_true by done.
Qed.

(** When the sequence yields an error after the parts at [ptrs], reading
    the source ends with that error, and what was read until then is the
    encoding of those parts without the trailer; the element that carries
    the error is not encoded, whatever part it names.  The [Read] after the
    error goes on with what the sequence yields next. *)
Theorem Read_stops_at_sequence_error (c : nat) (ptrs : list nat) (x : option nat)
    (e : error) (rest : PartSeq2) (s : Source) (h : Heap) :
  0 < c → pending s = PartSeq (map Some ptrs) ++ (x, Some e) :: rest →
  closed s = false → finalizing s = false → lastPart s = None →
  Forall goodPart h → Forall (λ p, p < length h) ptrs →
  ∃ out s1 h1 s2,
    readsOut c s h out e ∧
    runsTo c s h out s1 h1 ∧ Source_Read s1 h1 c = Ok ([], Some e, s2, h1) ∧
    pending s2 = rest ∧ lastPart s2 = None ∧ finalizing s2 = false ∧
    (NoDup ptrs → Forall (λ p, contentBytes h p ≠ []) ptrs →
     out ++ ending (boundary s) =
       encodeParts (boundary s) (negb (firstHeadingWritten s)) h ptrs).
Proof.
  intros Hc Hpend Hcl Hfin Hlast Hgood Hbound.
  destruct (reads_prefix c Hc ptrs s h _ Hpend Hcl Hfin Hlast Hgood Hbound)
    as (out & s1 & h1 & Hrun & Hpend1 & Hcl1 & Hfin1 & Hlast1 & Hb1 & Hexact).
  pose proof (Read_sequence_error s1 h1 c x e rest Hcl1 Hfin1 Hlast1 Hpend1) as Hread.
  exists out, s1, h1, (setPull (pulled s1) (Some rest)).
  split_and!; [|done|done|done| | |done].
  - rewrite <- (app_nil_r out). eapply readsOut_runs; [exact Hrun|].
    eapply readsOut_stop. exact Hread.
  - unfold pulled. by destruct (pull s1).
  - unfold pulled. by destruct (pull s1).
Qed.

(** [WriteTo] writes the parts that come first in the sequence and goes on
    with whatever the sequence yields next. *)
Lemma writes_prefix : ∀ ptrs n s h t tail,
  Forall (copyable (isReaderFrom t)) h → Forall (λ p, p < length h) ptrs →
  ∃ fuel0 out s' h',
    (∀ fuel, fuel0 ≤ fuel →
       writeParts fuel (PartSeq (map Some ptrs) ++ tail) n s h t =
         writeParts fuel tail (n + length out) s' h' (sinkWrite t out)) ∧
    boundary s' = boundary s ∧
    (NoDup ptrs →
     out ++ ending (boundary s) =
       encodeParts (boundary s) (negb (firstHeadingWritten s)) h ptrs).
Proof.
  induction ptrs as [|ptr rest IH]; intros n s h t tail Hgood Hbound.
  - exists 0, [], s, h. split_and!; [|done|done].
    intros fuel _. cbn [PartSeq map app length]. by rewrite Nat.add_0_r, sinkWrite_nil.
  - apply Forall_cons in Hbound as [Hlt Hbound].
    destruct (lookup_lt_is_Some_2 h ptr Hlt) as [part Hp].
    pose proof (proj1 (Forall_lookup _ _) Hgood ptr part Hp) as Hcp.
    unfold copyable in Hcp. destruct (Content part) as [r|] eqn:Hcont; [|done].
    destruct Hcp as (Hwf & Heof & Hdisp).
    set (H := partHeading (negb (firstHeadingWritten s)) (boundary s) (Header part)).
    set (s2 := setBuffered (populatePartHeading s part) []).
    destruct (writePartContent_copyable s2 r (sinkWrite t H) Hwf Heof Hdisp)
      as (fuel1 & r' & Hwf' & Hs' & Hk' & Hcopy).
    set (h' := <[ptr := setContent part (Some r')]> h).
    assert (Forall (copyable (isReaderFrom t)) h') as Hgood'.
    { apply Forall_insert; [done|]. unfold copyable. simpl. rewrite Hs', Hk'. done. }
    assert (length h' = length h) as Hlen' by apply length_insert.
    destruct (IH (n + length H + length (stream r).1) s2 h'
                 (sinkWrite (sinkWrite t H) (stream r).1) tail)
      as (fuel2 & out2 & s3 & h3 & Hrun & Hb3 & Hexact); [done|by rewrite Hlen'|].
    exists (fuel1 `max` fuel2), (H ++ (stream r).1 ++ out2), s3, h3. split_and!.
    + intros fuel Hf. cbn [PartSeq map app writeParts]. rewrite Hp.
      cbn [populatePartHeading buffered]. fold H. fold s2. rewrite Hcont.
      rewrite Hcopy by lia. cbn [mbind option_bind]. fold h'.
      fold (PartSeq (map Some rest)). rewrite Hrun by lia. rewrite !sinkWrite_app.
      f_equal. rewrite !length_app. lia.
    + done.
    + intros [Hnotin Hnd]%NoDup_cons. rewrite <- !app_assoc.
      change (boundary s) with (boundary s2) at 1. rewrite (Hexact Hnd). simpl.
      rewrite (encodeParts_ext _ _ h h').
      * unfold headerAt, contentBytes. rewrite Hp, Hcont. done.
      * apply Forall_forall. intros q Hq. subst h'.
        apply list_lookup_insert_ne. by intros ->.
Qed.

(** When the sequence yields an error after the parts at [ptrs], [WriteTo]
    returns that error and the number of bytes written, having written the
    encoding of those parts without the trailer; what the sequence would
    yield after the error is not asked for. *)
Theorem WriteTo_stops_at_sequence_error (ptrs : list nat) (x : option nat) (e : error)
    (rest : PartSeq2) (s : Source) (h : Heap) (t : Sink) :
  closed s = false → parts s = PartSeq (map Some ptrs) ++ (x, Some e) :: rest →
  Forall (copyable (isReaderFrom t)) h → Forall (λ p, p < length h) ptrs →
  ∃ fuel0 out,
    (∀ fuel, fuel0 ≤ fuel →
       ∃ s' h', Source_WriteTo fuel s h t =
                  Some (Ok (length out, Some e, s', h', sinkWrite t out))) ∧
    (NoDup ptrs →
     out ++ ending (boundary s) =
       encodeParts (boundary s) (negb (firstHeadingWritten s)) h ptrs).
Proof.
  intros Hcl Hparts Hgood Hbound.
  destruct (writes_prefix ptrs 0 s h t ((x, Some e) :: rest) Hgood Hbound)
    as (fuel0 & out & s' & h' & Hrun & _ & Hexact).
  exists fuel0, out. split; [|done].
  intros fuel Hf. exists s', h'. unfold Source_WriteTo. rewrite Hcl, Hparts.
  rewrite Hrun by done. by destruct x.
Qed.

Lemma Read_stops_at_sequence_error_witness :
  ∃ out s1 h1 s2,
    readsOut 3 srcFailing [contentPart "foo"] out (ErrOther "no more parts") ∧
    runsTo 3 srcFailing [contentPart "foo"] out s1 h1 ∧
    Source_Read s1 h1 3 = Ok ([], Some (ErrOther "no more parts"), s2, h1) ∧
    pending s2 = [] ∧ lastPart s2 = None ∧ finalizing s2 = false ∧
    (NoDup [0] → Forall (λ p, contentBytes [contentPart "foo"] p ≠ []) [0] →
     out ++ ending (boundary srcFailing) =
       encodeParts (boundary srcFailing) (negb (firstHeadingWritten srcFailing))
         [contentPart "foo"] [0]).
Proof.
  apply (Read_stops_at_sequence_error 3 [0] None (ErrOther "no more parts") []
           srcFailing [contentPart "foo"]).
  - lia.
  - reflexivity.
  - reflexivity.
  - reflexivity.
  - reflexivity.
  - repeat constructor.
  - repeat constructor.
Defined.

Lemma WriteTo_stops_at_sequence_error_witness :
  ∃ fuel0 out,
    (∀ fuel, fuel0 ≤ fuel →
       ∃ s' h', Source_WriteTo fuel srcFailing [contentPart "foo"] (mkSink [] true) =
                  Some (Ok (length out, Some (ErrOther "no more parts"), s', h',
                            sinkWrite (mkSink [] true) out))) ∧
    (NoDup [0] →
     out ++ ending (boundary srcFailing) =
       encodeParts (boundary srcFailing) (negb (firstHeadingWritten srcFailing))
         [contentPart "foo"] [0]).
Proof.
  apply (WriteTo_stops_at_sequence_error [0] None (ErrOther "no more parts") []
           srcFailing [contentPart "foo"] (mkSink [] true)).
  - reflexivity.
  - reflexivity.
  - repeat constructor.
  - repeat constructor.
Defined.

(** ** The Content-Type of the request *)

Lemma boundaryChar_plain c :
  boundaryChar c || bool_decide (c = " "%char) = true →
  bool_decide ((nat_of_ascii c < 32 ∨ 126 < nat_of_ascii c) ∧ nat_of_ascii c ≠ 9) = false ∧
  quoteChar c = [c].
Proof.
  destruct c as [[] [] [] [] [] [] [] []]; vm_compute;
    (intros H; first [discriminate H | split; reflexivity]).
Qed.

Lemma plain_bytes (bs : bytes) :
  Forall (λ c, boundaryChar c || bool_decide (c = " "%char) = true) bs →
  existsb (λ c, let n := nat_of_ascii c in bool_decide ((n < 32 ∨ 126 < n) ∧ n ≠ 9)) bs
    = false ∧
  concat (map quoteChar bs) = bs.
Proof.
  induction 1 as [|c bs Hc _ [IH1 IH2]]; [done|].
  destruct (boundaryChar_plain c Hc) as [Hn Hq]. cbn [existsb map concat].
  cbv zeta in *. rewrite Hn, IH1, Hq, IH2. done.
Qed.

(** For a boundary that [SetBoundary] accepts, [FormDataContentType] is
    [multipart/form-data; boundary=] followed by the boundary as it is when
    it is a token, and by the boundary between double quotes, with nothing
    escaped, when it is not; it is never percent-encoded. *)
Theorem FormDataContentType_valid (s : Source) :
  validBoundary (boundary s) →
  bytes_of (FormDataContentType s) =
    bytes_of "multipart/form-data; boundary=" ++
    (if isToken (boundary s) then bytes_of (boundary s)
     else DQUOTE :: bytes_of (boundary s) ++ [DQUOTE]).
Proof.
  intros [_ Hchars].
  assert (Forall (λ c, boundaryChar c || bool_decide (c = " "%char) = true)
            (bytes_of (boundary s))) as Hall.
  { apply Forall_lookup. intros i c Hi. destruct (Hchars i c Hi) as [->|[-> _]]; done. }
  destruct (plain_bytes _ Hall) as [Hne Hq].
  unfold FormDataContentType, FormatMediaType. rewrite sortedKeys_singleton.
  replace (formatType "multipart/form-data") with (Some (bytes_of "multipart/form-data"))
    by (vm_compute; reflexivity).
  cbn [formatParams]. rewrite lookup_singleton_eq. cbn [default].
  unfold formatParam.
  replace (isToken "boundary") with true by (vm_compute; reflexivity).
  replace (toLower "boundary") with "boundary"%string by (vm_compute; reflexivity).
  cbn [negb]. unfold id, needsEncoding. unfold bytes_of in *. rewrite Hne, Hq.
  rewrite String.list_ascii_of_string_of_list_ascii.
  destruct (isToken (boundary s)); by rewrite app_nil_r.
Qed.

Lemma FormDataContentType_valid_witness :
  bytes_of (FormDataContentType srcAAA) =
    bytes_of "multipart/form-data; boundary=" ++
    (if isToken (boundary srcAAA) then bytes_of (boundary srcAAA)
     else DQUOTE :: bytes_of (boundary srcAAA) ++ [DQUOTE]).
Proof.
  apply (FormDataContentType_valid srcAAA). split.
  - vm_compute. lia.
  - intros i c Hi. left.
    do 3 (destruct i as [|i]; [injection Hi as <-; reflexivity|]). discriminate Hi.
Defined.
